(** * doc-core: the chunker and the batch ingestion pipeline of populate_db.py

    A shallow embedding of [split_text_into_chunks], [process_file],
    [process_batch] and [import_with_batching], and the properties of the
    specification checked against them.

    Python values are modelled as follows.
    - A [str] is the list of its Unicode code points; [len] is the length of
      that list, as in Python.
    - An [int] is a [Z].
    - A reading of [time.time()] is a rational number.  A float is a dyadic
      rational, a difference of two floats is zero exactly when they are
      equal, and a float division raises [ZeroDivisionError] exactly when
      the divisor is zero; the rounding of float arithmetic is not modelled
      (rates are only printed).  An int that is divided by a float is
      taken as it is: the counters of a run are taken to be within the
      range of floats; from 2^1024 - 2^970 on, the conversion of Python
      raises [OverflowError].
    - What a computation raises is a value of [raised]: an instance of
      [Exception], of type [exn], or an exception that is no instance of
      [Exception]; a computation that may raise returns a [result].  The
      file system, the readers of PDF and Word files and the sink of a run
      answer with an [answer]: their failures are instances of [Exception].
      [process_batch] is defined over any sink. *)

From Stdlib Require Import String Ascii.
From Stdlib Require Import List ZArith NArith Lia Bool Arith QArith.
Import ListNotations.

(* ================================================================== *)
(** * Strings *)

Module Str.

Definition char := N.
Definition str := list char.

(** A string literal: the code points of an ASCII string. *)
Definition lit (s : string) : str := map N_of_ascii (list_ascii_of_string s).

Definition nl : char := 10%N.
Definition sp : char := 32%N.

(** [len(s)] *)
Definition len (s : str) : Z := Z.of_nat (length s).

(** Truth value of a string: [if s:] holds when [s] is not empty. *)
Definition truthy (s : str) : bool :=
  match s with [] => false | _ :: _ => true end.

(** [str.isspace] on one code point, the set used by [str.strip()] and by
    [\s] in a [str] pattern. *)
Definition isspace (c : char) : bool :=
  ((9 <=? c) && (c <=? 13) || (28 <=? c) && (c <=? 32)
   || (c =? 133) || (c =? 160) || (c =? 5760)
   || (8192 <=? c) && (c <=? 8202)
   || (c =? 8232) || (c =? 8233) || (c =? 8239) || (c =? 8287)
   || (c =? 12288))%N.

Fixpoint lstrip (s : str) : str :=
  match s with
  | [] => []
  | c :: s' => if isspace c then lstrip s' else s
  end.

Definition rstrip (s : str) : str := rev (lstrip (rev s)).

(** [s.strip()] *)
Definition strip (s : str) : str := rstrip (lstrip s).

Fixpoint starts_with (p s : str) : bool :=
  match p, s with
  | [], _ => true
  | _ :: _, [] => false
  | a :: p', b :: s' => (a =? b)%N && starts_with p' s'
  end.

(** [s.split(sep)] for a non-empty [sep]: the occurrences of [sep] are found
    from the left and do not overlap.  [skip] counts the characters of an
    occurrence already found that are still to be passed over, [acc] holds
    the current piece in reverse. *)
Fixpoint split_go (sep : str) (skip : nat) (acc : str) (s : str) : list str :=
  match s with
  | [] => [rev acc]
  | c :: s' =>
      match skip with
      | S k => split_go sep k acc s'
      | O =>
          if starts_with sep s
          then rev acc :: split_go sep (length sep - 1) [] s'
          else split_go sep 0 (c :: acc) s'
      end
  end.

Definition split (sep : str) (s : str) : list str := split_go sep 0 [] s.

(** [sep.join(parts)] *)
Fixpoint join (sep : str) (parts : list str) : str :=
  match parts with
  | [] => []
  | [p] => p
  | p :: ps => p ++ sep ++ join sep ps
  end.

(** The class [[.!?]]. *)
Definition is_terminator (c : char) : bool :=
  ((c =? 46) || (c =? 33) || (c =? 63))%N.

Definition after_terminator (prev : option char) : bool :=
  match prev with Some p => is_terminator p | None => false end.

(** [re.split(r'(?<=[.!?])\s+', s)].  A match starts at a whitespace
    character whose predecessor is one of [.!?] and, [\s+] being greedy,
    extends over the whole run of whitespace; no character of a match is
    kept.  [in_match] tells that the scan is inside a match, [prev] is the
    character before the current position, [acc] the current piece in
    reverse. *)
Fixpoint re_split_go (in_match : bool) (prev : option char) (acc : str)
    (s : str) : list str :=
  match s with
  | [] => [rev acc]
  | c :: s' =>
      if isspace c then
        if in_match then re_split_go true (Some c) acc s'
        else if after_terminator prev
             then rev acc :: re_split_go true (Some c) [] s'
             else re_split_go false (Some c) (c :: acc) s'
      else re_split_go false (Some c) (c :: acc) s'
  end.

Definition re_split_sentences (s : str) : list str :=
  re_split_go false None [] s.

End Str.

Import Str.

Open Scope Z_scope.

(* ================================================================== *)
(** * The chunker *)

Definition blank_line : str := [nl; nl].

(** The state of the loop of [split_text_into_chunks]: the list [chunks] and
    the buffer [current_chunk]. *)
Definition chunker_state := (list str * str)%type.

(** Body of [for sentence in sentences] (lines 38-44). *)
Definition add_sentence (max_chunk_size : Z) (st : chunker_state)
    (sentence : str) : chunker_state :=
  let '(chunks, current_chunk) := st in
  if len current_chunk + len sentence <=? max_chunk_size then
    (chunks,
     if truthy current_chunk then current_chunk ++ [sp] ++ sentence
     else sentence)
  else
    ((if truthy current_chunk then chunks ++ [strip current_chunk]
      else chunks),
     sentence).

(** Body of [for paragraph in paragraphs] (lines 29-50). *)
Definition add_paragraph (max_chunk_size : Z) (st : chunker_state)
    (paragraph0 : str) : chunker_state :=
  let paragraph := strip paragraph0 in
  if negb (truthy paragraph) then st
  else if len paragraph >? max_chunk_size then
    fold_left (add_sentence max_chunk_size) (re_split_sentences paragraph) st
  else
    let '(chunks, current_chunk) := st in
    if len current_chunk + len paragraph <=? max_chunk_size then
      (chunks,
       if truthy current_chunk then current_chunk ++ blank_line ++ paragraph
       else paragraph)
    else (chunks ++ [strip current_chunk], paragraph).

(** Lines 52-55: the last buffer is flushed when it is not empty. *)
Definition flush (st : chunker_state) : list str :=
  let '(chunks, current_chunk) := st in
  if truthy current_chunk then chunks ++ [strip current_chunk] else chunks.

Definition split_text_into_chunks (text : str) (max_chunk_size : Z)
    : list str :=
  let paragraphs := split blank_line text in
  flush (fold_left (add_paragraph max_chunk_size) paragraphs ([], [])).

(* ================================================================== *)
(** * Python lists: [range] and slices *)

(** The instances of [Exception]. *)
Inductive exn :=
| ValueError (msg : string)
| ZeroDivisionError (msg : string)
| LibraryError (msg : string).
(** [LibraryError] stands for an [Exception] raised by a collaborator: the
    file system, PyMuPDF, python-docx or the weaviate client. *)

(** What a [raise] carries: an instance of [Exception], which
    [except Exception] catches, or an instance of [BaseException] only
    ([SystemExit], [KeyboardInterrupt], [GeneratorExit],
    [asyncio.CancelledError]), which it lets through. *)
Inductive raised :=
| Exception (e : exn)
| BaseException (name : string).

Coercion Exception : exn >-> raised.

Inductive outcome (E A : Type) :=
| Ok (a : A)
| Raise (e : E).
Arguments Ok {E A} & a.
Arguments Raise {E A} & e.

(** What a computation returns or raises. *)
Definition result (A : Type) : Type := outcome raised A.

(** What an operation answers that fails with instances of [Exception]
    only. *)
Definition answer (A : Type) : Type := outcome exn A.

Definition inject {A} (r : answer A) : result A :=
  match r with
  | Ok a => Ok a
  | Raise e => Raise (Exception e)
  end.

(** [list(range(start, stop, step))]: a zero step raises, otherwise the
    length is computed as CPython does and item [k] is [start + k * step]. *)
Definition range_length (start stop step : Z) : Z :=
  let '(lo, hi, st) :=
    if 0 <? step then (start, stop, step) else (stop, start, - step) in
  if hi <=? lo then 0 else (hi - lo - 1) / st + 1.

Definition py_range (start stop step : Z) : answer (list Z) :=
  if step =? 0 then Raise (ValueError "range() arg 3 must not be zero")
  else Ok (map (fun k => start + Z.of_nat k * step)
               (seq 0 (Z.to_nat (range_length start stop step)))).

(** A slice bound is taken from the end when negative and clamped to
    [0 .. len]. *)
Definition clamp_index (n i : Z) : Z :=
  let i := if i <? 0 then i + n else i in
  Z.max 0 (Z.min n i).

(** [l[i:j]] *)
Definition py_slice {A} (l : list A) (i j : Z) : list A :=
  let n := Z.of_nat (length l) in
  let lo := clamp_index n i in
  let hi := clamp_index n j in
  firstn (Z.to_nat (hi - lo)) (skipn (Z.to_nat lo) l).

(** Line 146:
    [[all_chunks[i:i + batch_size] for i in range(0, len(all_chunks), batch_size)]] *)
Definition assemble {A} (all_chunks : list A) (batch_size : Z)
    : answer (list (list A)) :=
  match py_range 0 (Z.of_nat (length all_chunks)) batch_size with
  | Raise e => Raise e
  | Ok indices =>
      Ok (map (fun i => py_slice all_chunks i (i + batch_size)) indices)
  end.

(* ================================================================== *)
(** * The ingestion pipeline *)

(** The dictionaries built by [process_pdf] and [process_file]; the key
    ["metadata"] is present only for PDF chunks. *)
Record Metadata := { source : string; page : Z; chunk : Z }.
Record ChunkRecord :=
  { type_ : string; content : str; metadata : option Metadata }.

(** The [properties] dictionary handed to [batch.add_object]. *)
Record Properties :=
  { p_content : str; p_type : string; p_metadata : option Metadata }.

(** The lines written by [print]. *)
Inductive message :=
| ErrorProcessingPDF (file_path : string) (e : exn)
| ErrorProcessingFile (file_path : string) (e : exn)
| UnsupportedFileType (file_path : string)
| Exc (e : exn)
| Rate (rate : Q)
| MemoryUsage
| Finished (n : Z) (elapsed_time : Q)
| FinalAverageRate (final_rate : Q)
| ErrorDuringImport (e : exn).

(** What a run does to the outside, in order. *)
Inductive event :=
| ProcessFile (file_path : string)
| Submit (batch : list ChunkRecord)
| BatchEnter
| AddObject (properties : Properties)
| BatchExit
| Print (line : message).

(** The batch context of the sink, as [process_batch] uses it:
    [newsDb.batch.dynamic().__enter__()], [batch.add_object(properties)]
    and [__exit__].  Each call answers as a function of the events so far,
    and may raise anything. *)
Record Sink := {
  enter : list event -> result unit;
  add_object : list event -> Properties -> result unit;
  leave : list event -> result unit
}.

(** The collaborators of a run.  The sink answers as a function of the
    events so far, so a submission may fail for any reason the history
    determines. *)
Record Env := {
  walk : string -> list string;
  extension : string -> string;
  read_text : string -> answer str;
  pdf_pages : string -> answer (list (Z * str));
  docx_paragraphs : string -> answer (list str);
  batch_enter : list event -> answer unit;
  batch_add : list event -> Properties -> answer unit;
  batch_exit : list event -> answer unit;
  clock : nat -> Q
}.

(** The state threaded through a run: how often the clock was read, and the
    events so far. *)
Record world := { ticks : nat; trace : list event }.

Definition M (A : Type) : Type := world -> result A * world.

Definition ret {A} (a : A) : M A := fun w => (Ok a, w).
Definition raise {A} (e : raised) : M A := fun w => (Raise e, w).
Definition bind {A B} (m : M A) (k : A -> M B) : M B :=
  fun w => match m w with
           | (Ok a, w') => k a w'
           | (Raise e, w') => (Raise e, w')
           end.

Notation "x <- m ;; k" := (bind m (fun x => k))
  (at level 61, m at next level, right associativity).
Notation "m ;;; k" := (bind m (fun _ => k))
  (at level 61, right associativity).

Definition lift {A} (r : answer A) : M A := fun w => (inject r, w).

Definition emit (ev : event) : M unit :=
  fun w => (Ok tt, {| ticks := ticks w; trace := trace w ++ [ev] |}).

Definition print (line : message) : M unit := emit (Print line).

(** A call to the sink: the event is recorded, then the sink answers. *)
Definition call (ev : event) (reply : list event -> result unit) : M unit :=
  fun w =>
    let w' := {| ticks := ticks w; trace := trace w ++ [ev] |} in
    (reply (trace w'), w').

(** [time.time()] *)
Definition time_time (env : Env) : M Q :=
  fun w => (Ok (clock env (ticks w)),
            {| ticks := S (ticks w); trace := trace w |}).

(** [try: m except Exception as e: handler e]: an exception that is no
    instance of [Exception] passes through. *)
Definition try_except {A} (m : M A) (handler : exn -> M A) : M A :=
  fun w => match m w with
           | (Ok a, w') => (Ok a, w')
           | (Raise (Exception e), w') => handler e w'
           | (Raise (BaseException name), w') => (Raise (BaseException name), w')
           end.

(** [x / y] with a float divisor. *)
Definition float_div (x y : Q) : answer Q :=
  if Qeq_bool y 0 then Raise (ZeroDivisionError "float division by zero")
  else Ok (x / y)%Q.

Definition text_chunk (c : str) : ChunkRecord :=
  {| type_ := "text"; content := c; metadata := None |}.

(** Lines 71-80: the chunks of one page, numbered from 1. *)
Fixpoint page_chunks (file_path : string) (page_number : Z) (chunk_idx : Z)
    (cs : list str) : list ChunkRecord :=
  match cs with
  | [] => []
  | c :: cs' =>
      {| type_ := "text"; content := c;
         metadata := Some {| source := file_path; page := page_number + 1;
                             chunk := chunk_idx + 1 |} |}
      :: page_chunks file_path page_number (chunk_idx + 1) cs'
  end.

Definition process_pdf (env : Env) (file_path : string)
    : M (option (list ChunkRecord)) :=
  try_except
    (doc <- lift (pdf_pages env file_path) ;;
     ret (Some (flat_map
                  (fun pg => page_chunks file_path (fst pg) 0
                               (split_text_into_chunks (snd pg) 1000))
                  doc)))
    (fun e => print (ErrorProcessingPDF file_path e) ;;; ret None).

Definition process_file (env : Env) (file_path : string)
    : M (option (list ChunkRecord)) :=
  emit (ProcessFile file_path) ;;;
  let file_extension := extension env file_path in
  try_except
    (if (file_extension =? ".txt")%string || (file_extension =? ".md")%string
     then
       content <- lift (read_text env file_path) ;;
       ret (Some (map text_chunk (split_text_into_chunks content 1000)))
     else if (file_extension =? ".pdf")%string then
       process_pdf env file_path
     else if (file_extension =? ".docx")%string then
       paras <- lift (docx_paragraphs env file_path) ;;
       let content := join blank_line paras in
       ret (Some (map text_chunk (split_text_into_chunks content 1000)))
     else
       print (UnsupportedFileType file_path) ;;; ret None)
    (fun e => print (ErrorProcessingFile file_path e) ;;; ret None).

Definition properties_of (c : ChunkRecord) : Properties :=
  {| p_content := content c; p_type := type_ c; p_metadata := metadata c |}.

(** [with newsDb.batch.dynamic() as batch: body]: the context is left
    through [__exit__] also when [body] raises. *)
Definition with_batch {A} (sink : Sink) (body : M A) : M A :=
  call BatchEnter (enter sink) ;;;
  fun w => match body w with
           | (Ok a, w') => (call BatchExit (leave sink) ;;; ret a) w'
           | (Raise e, w') => (call BatchExit (leave sink) ;;; raise e) w'
           end.

Fixpoint add_objects (sink : Sink) (chunks : list ChunkRecord) : M unit :=
  match chunks with
  | [] => ret tt
  | c :: rest =>
      let properties := properties_of c in
      call (AddObject properties) (fun h => add_object sink h properties) ;;;
      add_objects sink rest
  end.

(** Lines 121-130, the body of the [try]: one submission to the sink. *)
Definition sink_submission (sink : Sink) (chunks : list ChunkRecord)
    : M unit :=
  with_batch sink (add_objects sink chunks).

(** Lines 118-132.  The value returned is Python's [None]. *)
Definition process_batch (sink : Sink) (chunks : list ChunkRecord) : M unit :=
  try_except (sink_submission sink chunks) (fun e => print (Exc e)).

(** The sink of a run. *)
Definition sink_of (env : Env) : Sink := {|
  enter := fun h => inject (batch_enter env h);
  add_object := fun h properties => inject (batch_add env h properties);
  leave := fun h => inject (batch_exit env h)
|}.

(** Lines 139-144, over the files the walk yields. *)
Fixpoint process_files (env : Env) (filenames : list string)
    (all_chunks : list ChunkRecord) : M (list ChunkRecord) :=
  match filenames with
  | [] => ret all_chunks
  | file_path :: rest =>
      processed_chunks <- process_file env file_path ;;
      process_files env rest
        (match processed_chunks with
         | Some ((_ :: _) as cs) => all_chunks ++ cs
         | _ => all_chunks
         end)
  end.

(** A future holds what its call returned or raised.  The workers of the
    pool run concurrently; the trace is the one of the schedule in which a
    batch is processed as soon as it is submitted.  The counter [completed]
    belongs to the collecting thread alone. *)
Definition future := result unit.

(** [executor.submit(process_batch, batch)] *)
Definition submit_to (sink : Sink) (batch : list ChunkRecord) : M future :=
  emit (Submit batch) ;;;
  fun w => let '(r, w') := process_batch sink batch w in (Ok r, w').

Definition submit (env : Env) (batch : list ChunkRecord) : M future :=
  submit_to (sink_of env) batch.

(** [future.result()]: the value of the call, or what it raised. *)
Definition future_result (f : future) : M unit := fun w => (f, w).

Fixpoint submit_all (env : Env) (batches : list (list ChunkRecord))
    : M (list future) :=
  match batches with
  | [] => ret []
  | batch :: rest =>
      f <- submit env batch ;;
      fs <- submit_all env rest ;;
      ret (f :: fs)
  end.

(** Lines 154-162; the final value of [completed] is returned. *)
Fixpoint collect (env : Env) (batch_size : Z) (start_time : Q)
    (futures : list future) (completed : Z) : M Z :=
  match futures with
  | [] => ret completed
  | f :: rest =>
      future_result f ;;;
      let completed := completed + batch_size in
      (if completed mod 5000 =? 0 then
         now <- time_time env ;;
         let elapsed := (now - start_time)%Q in
         rate <- lift (float_div (inject_Z completed) elapsed) ;;
         print (Rate rate) ;;;
         print MemoryUsage
       else ret tt) ;;;
      collect env batch_size start_time rest completed
  end.

(** Lines 147-162: the timer is started and the batches are run; the value
    is [(start_time, completed)]. *)
Definition run_batches (env : Env) (batch_size : Z)
    (batches : list (list ChunkRecord)) : M (Q * Z) :=
  start_time <- time_time env ;;
  futures <- submit_all env batches ;;
  completed <- collect env batch_size start_time futures 0 ;;
  ret (start_time, completed).

(** Lines 164-167: the summary of the run. *)
Definition final_report (env : Env) (all_chunks : list ChunkRecord)
    (start_time : Q) : M unit :=
  now <- time_time env ;;
  let elapsed_time := (now - start_time)%Q in
  let n := Z.of_nat (length all_chunks) in
  final_rate <- lift (float_div (inject_Z n) elapsed_time) ;;
  print (Finished n elapsed_time) ;;;
  print (FinalAverageRate final_rate).

(** Lines 135-171. *)
Definition import_with_batching (env : Env) (file_path : string)
    (batch_size : Z) : M unit :=
  try_except
    (all_chunks <- process_files env (walk env file_path) [] ;;
     batches <- lift (assemble all_chunks batch_size) ;;
     sc <- run_batches env batch_size batches ;;
     final_report env all_chunks (fst sc))
    (fun e => print (ErrorDuringImport e) ;;; raise e).

Definition initial_world : world := {| ticks := 0; trace := [] |}.

(* ================================================================== *)
(** * Notions used to state the properties *)

(** The non-whitespace content of a string. *)
Definition non_blank (s : str) : str := filter (fun c => negb (isspace c)) s.

(** The first character, when there is one, is not whitespace. *)
Definition head_ok (s : str) : Prop :=
  match s with [] => True | c :: _ => isspace c = false end.

(** No whitespace at either end. *)
Definition trimmed (s : str) : Prop := head_ok s /\ head_ok (rev s).

(** What the loop of the chunker has consumed so far, without its
    whitespace. *)
Definition state_content (st : chunker_state) : str :=
  non_blank (concat (fst st) ++ snd st).

(** A chunk is well shaped when it is not empty and has no whitespace at
    its ends. *)
Definition shaped (x : str) : Prop := x <> [] /\ trimmed x.

Definition state_shaped (st : chunker_state) : Prop :=
  Forall shaped (fst st) /\ trimmed (snd st).

(** The indivisible units of a text: the sentences of its paragraphs, a
    paragraph without a sentence boundary being one sentence. *)
Definition units_of_paragraph (paragraph0 : str) : list str :=
  let paragraph := strip paragraph0 in
  if negb (truthy paragraph) then [] else re_split_sentences paragraph.

Definition units (text : str) : list str :=
  flat_map units_of_paragraph (split blank_line text).

(** The size property of the chunker as the specification words it: a chunk
    is within the limit, or it is one indivisible unit of the text. *)
Definition size_bounded (text : str) (max_chunk_size : Z) : Prop :=
  Forall (fun c => len c <= max_chunk_size \/ In c (units text))
         (split_text_into_chunks text max_chunk_size).

(** The value of [completed] when the loop over the futures ends. *)
Definition final_completed (env : Env) (batch_size : Z)
    (batches : list (list ChunkRecord)) (w : world) : result Z :=
  match fst (run_batches env batch_size batches w) with
  | Ok sc => Ok (snd sc)
  | Raise e => Raise e
  end.

Definition succeeded {A} (r : result A) : bool :=
  match r with Ok _ => true | Raise _ => false end.

(** The number of chunks in the batches whose submission to the sink
    succeeds, the batches being submitted one after the other from [w]. *)
Fixpoint delivered (env : Env) (batches : list (list ChunkRecord))
    (w : world) : Z :=
  match batches with
  | [] => 0
  | batch :: rest =>
      let w1 := snd (emit (Submit batch) w) in
      (if succeeded (fst (sink_submission (sink_of env) batch w1))
       then Z.of_nat (length batch) else 0)
      + delivered env rest (snd (submit env batch w))
  end.



(** The events of a whole run from the initial state. *)
Definition run_trace (env : Env) (file_path : string) (batch_size : Z)
    : list event :=
  trace (snd (import_with_batching env file_path batch_size initial_world)).

Definition run_result (env : Env) (file_path : string) (batch_size : Z)
    : result unit :=
  fst (import_with_batching env file_path batch_size initial_world).

(** A run with [batch_size = 0] as the specification words it: no file is
    processed. *)
Definition run_does_not_start (env : Env) (file_path : string) : Prop :=
  forall f, ~ In (ProcessFile f) (run_trace env file_path 0).

Definition is_sink_event (ev : event) : bool :=
  match ev with
  | Submit _ | BatchEnter | AddObject _ | BatchExit => true
  | _ => false
  end.

(** The rates printed by the progress report of lines 158-162. *)
Fixpoint progress_observations (tr : list event) : list Q :=
  match tr with
  | [] => []
  | Print (Rate r) :: tr' => r :: progress_observations tr'
  | _ :: tr' => progress_observations tr'
  end.

(** How often the running total, raised by [batch_size] per batch, passes a
    multiple of [interval] over [k] batches. *)
Fixpoint crossings (interval batch_size : Z) (k : nat) : nat :=
  match k with
  | O => O
  | S k' =>
      let before := Z.of_nat k' * batch_size in
      let after := Z.of_nat k * batch_size in
      let crossed := before / interval <? after / interval in
      ((if crossed then 1 else 0) + crossings interval batch_size k')%nat
  end.

(** A computation is steady when it only adds events that satisfy [P] and
    does not read the clock. *)
Definition steady {A} (P : event -> Prop) (m : M A) : Prop :=
  forall w, ticks (snd (m w)) = ticks w /\
            exists evs, trace (snd (m w)) = trace w ++ evs /\ Forall P evs.

(** A computation that returns, whatever the state. *)
Definition returns {A} (m : M A) : Prop :=
  forall w, exists a, fst (m w) = Ok a.

Definition extraction_event (ev : event) : Prop := is_sink_event ev = false.

(** Any event but a printed rate. *)
Definition not_rate (ev : event) : Prop :=
  match ev with Print (Rate _) => False | _ => True end.

(** The size property that the chunker has: a chunk made of several units
    may exceed the limit by the separator joined last. *)
Definition size_ok (max_chunk_size : Z) (Q : str -> Prop) (c : str) : Prop :=
  len c <= max_chunk_size + 2 \/ Q c.

Definition state_sized (max_chunk_size : Z) (Q : str -> Prop)
    (st : chunker_state) : Prop :=
  Forall (size_ok max_chunk_size Q) (fst st)
  /\ (snd st = [] \/ size_ok max_chunk_size Q (snd st)).

Definition division_by_zero : exn := ZeroDivisionError "float division by zero".


(** The result is an exception that [except Exception] does not catch. *)
Definition interrupts {A} (r : result A) : bool :=
  match r with
  | Raise (BaseException _) => true
  | _ => false
  end.

(** A computation that raises instances of [Exception] only. *)
Definition tame {A} (m : M A) : Prop :=
  forall w, interrupts (fst (m w)) = false.

(** A sink whose calls raise instances of [Exception] only. *)
Definition polite (sink : Sink) : Prop :=
  (forall h, interrupts (enter sink h) = false) /\
  (forall h p, interrupts (add_object sink h p) = false) /\
  (forall h, interrupts (leave sink h) = false).


(* ================================================================== *)
(** * Concrete inputs *)

Definition para_one : str := lit "Para one.".
Definition para_two : str := lit "Para two is a bit longer but still short.".

(** The text of the scenario: two paragraphs and a blank line between. *)
Definition scenario_text : str := para_one ++ blank_line ++ para_two.

(** Two paragraphs of four characters. *)
Definition two_short_paragraphs : str := lit "aaaa" ++ blank_line ++ lit "bbbb".

(** One paragraph of two sentences. *)
Definition two_short_sentences : str := lit "aaa. bbb.".

Definition no_file {A} (file_path : string) : answer A :=
  Raise (LibraryError "No such file or directory").

(** A directory without files, a sink that accepts everything, and a clock
    that gives the same reading twice. *)
Definition stalled_clock_env : Env := {|
  walk := fun _ => [];
  extension := fun _ => ""%string;
  read_text := no_file;
  pdf_pages := no_file;
  docx_paragraphs := no_file;
  batch_enter := fun _ => Ok tt;
  batch_add := fun _ _ => Ok tt;
  batch_exit := fun _ => Ok tt;
  clock := fun _ => 1730000000%Q
|}.

(** The same with a clock that gains one second per reading. *)
Definition ticking_env : Env := {|
  walk := fun _ => [];
  extension := fun _ => ""%string;
  read_text := no_file;
  pdf_pages := no_file;
  docx_paragraphs := no_file;
  batch_enter := fun _ => Ok tt;
  batch_add := fun _ _ => Ok tt;
  batch_exit := fun _ => Ok tt;
  clock := fun k => inject_Z (Z.of_nat k)
|}.

(** A directory with one text file. *)
Definition one_file_env : Env := {|
  walk := fun _ => ["directory/notes.txt"%string];
  extension := fun _ => ".txt"%string;
  read_text := fun _ => Ok (lit "hello");
  pdf_pages := no_file;
  docx_paragraphs := no_file;
  batch_enter := fun _ => Ok tt;
  batch_add := fun _ _ => Ok tt;
  batch_exit := fun _ => Ok tt;
  clock := fun k => inject_Z (Z.of_nat k)
|}.

Definition count_enters (history : list event) : nat :=
  length (filter (fun ev => match ev with BatchEnter => true | _ => false end)
                 history).

(** A sink that refuses the first batch and accepts the later ones. *)
Definition first_batch_refused_env : Env := {|
  walk := fun _ => [];
  extension := fun _ => ""%string;
  read_text := no_file;
  pdf_pages := no_file;
  docx_paragraphs := no_file;
  batch_enter := fun history =>
    if (count_enters history =? 1)%nat
    then Raise (LibraryError "connection refused") else Ok tt;
  batch_add := fun _ _ => Ok tt;
  batch_exit := fun _ => Ok tt;
  clock := fun k => inject_Z (Z.of_nat k)
|}.

Definition four_chunks : list ChunkRecord :=
  map text_chunk [lit "a"; lit "b"; lit "c"; lit "d"].

Definition two_full_batches : list (list ChunkRecord) :=
  [ [text_chunk (lit "a"); text_chunk (lit "b")];
    [text_chunk (lit "c"); text_chunk (lit "d")] ].

(** 5120 chunks, and the forty batches of the default size that they make. *)
Definition many_chunks : list ChunkRecord :=
  repeat (text_chunk (lit "x")) (40 * 128).

Definition forty_batches : list (list ChunkRecord) :=
  repeat (repeat (text_chunk (lit "x")) 128) 40.

(** A sink whose context is cancelled while the first object is added. *)
Definition cancelled_sink : Sink := {|
  enter := fun _ => Ok tt;
  add_object := fun _ _ => Raise (BaseException "CancelledError");
  leave := fun _ => Ok tt
|}.

(* ================================================================== *)
(** * Further notions: the pieces the chunker packs, and views of a trace *)

(** What the chunker packs into the buffer: a paragraph within the limit
    goes in whole, a longer one sentence by sentence (lines 36-50). *)
Definition pieces_of_paragraph (max_chunk_size : Z) (paragraph0 : str)
    : list str :=
  let paragraph := strip paragraph0 in
  if negb (truthy paragraph) then []
  else if len paragraph >? max_chunk_size then re_split_sentences paragraph
  else [paragraph].

Definition pieces (text : str) (max_chunk_size : Z) : list str :=
  flat_map (pieces_of_paragraph max_chunk_size) (split blank_line text).

(** [glued g c]: the string [c] is the pieces of [g], in order, with a
    single space or a blank line between neighbours. *)
Inductive glued : list str -> str -> Prop :=
| glued_one u : glued [u] u
| glued_space g c u : glued g c -> glued (g ++ [u]) (c ++ [sp] ++ u)
| glued_blank g c u : glued g c -> glued (g ++ [u]) (c ++ blank_line ++ u).

(** The state of the chunker holds the pieces [done], grouped as they were
    packed: [groups] for the chunks, [g] for the buffer. *)
Definition state_glued (st : chunker_state) (done : list str) : Prop :=
  exists groups g,
    concat groups ++ g = done /\
    Forall2 glued groups (fst st) /\
    (snd st = [] -> g = []) /\
    (snd st <> [] -> glued g (snd st)).

(** The length of the text that is still to come, each paragraph with the
    blank line before it. *)
Definition rest_len (paragraphs : list str) : Z :=
  fold_right (fun p acc => 2 + len p + acc) 0 paragraphs.

Definition fits_whole (max_chunk_size : Z) (st : chunker_state)
    (paragraphs : list str) : Prop :=
  fst st = [] /\
  (snd st = [] -> rest_len paragraphs <= max_chunk_size + 2) /\
  (snd st <> [] -> len (snd st) + rest_len paragraphs <= max_chunk_size).

(** The batches handed to the pool, in the order of the trace. *)
Fixpoint submitted (tr : list event) : list (list ChunkRecord) :=
  match tr with
  | [] => []
  | Submit batch :: tr' => batch :: submitted tr'
  | _ :: tr' => submitted tr'
  end.

(** The objects offered to the sink through [batch.add_object]. *)
Fixpoint added_objects (tr : list event) : list Properties :=
  match tr with
  | [] => []
  | AddObject properties :: tr' => properties :: added_objects tr'
  | _ :: tr' => added_objects tr'
  end.

(** A sink that never raises. *)
Definition accepts (sink : Sink) : Prop :=
  (forall h, enter sink h = Ok tt) /\
  (forall h p, add_object sink h p = Ok tt) /\
  (forall h, leave sink h = Ok tt).


(** The metadata of the chunks of one page: the file, the number of the
    page counted from 1, and the place of the chunk in the page, counted
    from 1. *)
Definition page_metadata (file_path : string) (pg : Z * str)
    : list (option Metadata) :=
  map (fun i => Some {| source := file_path; page := fst pg + 1;
                        chunk := Z.of_nat i |})
      (seq 1 (length (split_text_into_chunks (snd pg) 1000))).

(** The events of a worker thread. *)
Definition worker_event (ev : event) : Prop :=
  match ev with
  | BatchEnter | AddObject _ | BatchExit | Print (Exc _) => True
  | _ => False
  end.

(** A computation that only adds events satisfying [P]; it may read the
    clock. *)
Definition appends {A} (P : event -> Prop) (m : M A) : Prop :=
  forall w, exists evs, trace (snd (m w)) = trace w ++ evs /\ Forall P evs.

(** A computation whose value does not depend on the state it starts in. *)
Definition state_blind {A} (m : M A) : Prop :=
  forall w w', fst (m w) = fst (m w').

(** What [process_file] returns for a file: the extraction asks neither the
    sink nor the clock, so the initial state serves. *)
Definition extracted (env : Env) (file_path : string)
    : option (list ChunkRecord) :=
  match fst (process_file env file_path initial_world) with
  | Ok r => r
  | Raise _ => None
  end.

Definition chunks_of (env : Env) (file_path : string) : list ChunkRecord :=
  match extracted env file_path with Some cs => cs | None => [] end.

(** The chunks of all the files of the walk, in the order of the walk. *)
Definition extracted_chunks (env : Env) (file_path : string)
    : list ChunkRecord :=
  flat_map (chunks_of env) (walk env file_path).


(** A sentence ends with one of [.!?]. *)
Definition ends_with_terminator (s : str) : Prop :=
  exists body t, s = body ++ [t] /\ is_terminator t = true.

(** A sink that accepts everything, a clock that ticks, and a directory
    with one text file of two paragraphs. *)
Definition accepting_env : Env := {|
  walk := fun _ => ["directory/notes.txt"%string];
  extension := fun _ => ".txt"%string;
  read_text := fun _ => Ok scenario_text;
  pdf_pages := no_file;
  docx_paragraphs := no_file;
  batch_enter := fun _ => Ok tt;
  batch_add := fun _ _ => Ok tt;
  batch_exit := fun _ => Ok tt;
  clock := fun k => inject_Z (Z.of_nat k)
|}.

(** A PDF of two pages. *)
Definition two_pages : list (Z * str) :=
  [(0, scenario_text); (1, two_short_paragraphs)].

Definition two_page_env : Env := {|
  walk := fun _ => ["directory/paper.pdf"%string];
  extension := fun _ => ".pdf"%string;
  read_text := no_file;
  pdf_pages := fun _ => Ok two_pages;
  docx_paragraphs := no_file;
  batch_enter := fun _ => Ok tt;
  batch_add := fun _ _ => Ok tt;
  batch_exit := fun _ => Ok tt;
  clock := fun k => inject_Z (Z.of_nat k)
|}.

(** A Word document of two paragraphs. *)
Definition docx_env : Env := {|
  walk := fun _ => ["directory/letter.docx"%string];
  extension := fun _ => ".docx"%string;
  read_text := no_file;
  pdf_pages := no_file;
  docx_paragraphs := fun _ => Ok [para_one; para_two];
  batch_enter := fun _ => Ok tt;
  batch_add := fun _ _ => Ok tt;
  batch_exit := fun _ => Ok tt;
  clock := fun k => inject_Z (Z.of_nat k)
|}.

(** The record invariant: the type is ["text"], the content is not empty
    and has no whitespace at its ends. *)
Definition well_formed (c : ChunkRecord) : Prop :=
  type_ c = "text"%string /\ content c <> [] /\ strip (content c) = content c.

(** Three text files of one chunk each, a sink that refuses the first
    batch, and a clock that ticks. *)
Definition three_files_env : Env := {|
  walk := fun _ => ["directory/a.txt"; "directory/b.txt";
                    "directory/c.txt"]%string;
  extension := fun _ => ".txt"%string;
  read_text := fun _ => Ok para_one;
  pdf_pages := no_file;
  docx_paragraphs := no_file;
  batch_enter := fun history =>
    if (count_enters history =? 1)%nat
    then Raise (LibraryError "connection refused") else Ok tt;
  batch_add := fun _ _ => Ok tt;
  batch_exit := fun _ => Ok tt;
  clock := fun k => inject_Z (Z.of_nat k)
|}.


(* ================================================================== *)
(** * Facts about strings *)

Section StringFacts.

Lemma non_blank_app a b : non_blank (a ++ b) = non_blank a ++ non_blank b.
Proof. apply filter_app. Qed.

Lemma non_blank_rev s : non_blank (rev s) = rev (non_blank s).
Proof.
  induction s as [|c s IH]; simpl; [reflexivity|].
  rewrite non_blank_app, IH. simpl.
  destruct (isspace c); simpl; [now rewrite app_nil_r | reflexivity].
Qed.

Lemma non_blank_lstrip s : non_blank (lstrip s) = non_blank s.
Proof.
  induction s as [|c s IH]; simpl; [reflexivity|].
  destruct (isspace c) eqn:E; simpl; [exact IH | now rewrite E].
Qed.

Lemma non_blank_strip s : non_blank (strip s) = non_blank s.
Proof.
  unfold strip, rstrip.
  now rewrite non_blank_rev, non_blank_lstrip, non_blank_rev, rev_involutive,
    non_blank_lstrip.
Qed.

Lemma non_blank_spaces s : Forall (fun c => isspace c = true) s -> non_blank s = [].
Proof.
  induction 1 as [|c s Hc _ IH]; simpl; [reflexivity|]. now rewrite Hc.
Qed.

Lemma starts_with_app p s :
  starts_with p s = true -> exists r, s = p ++ r.
Proof.
  revert s; induction p as [|a p IH]; intros s H; simpl in *.
  - now exists s.
  - destruct s as [|b s]; [discriminate|].
    apply andb_true_iff in H as [Hab Hp]. apply N.eqb_eq in Hab; subst b.
    destruct (IH _ Hp) as [r ->]. now exists r.
Qed.

Lemma non_blank_split_go sep : sep <> [] ->
  Forall (fun c => isspace c = true) sep ->
  forall s skip acc,
    Forall (fun c => isspace c = true) (firstn skip s) ->
    non_blank (concat (split_go sep skip acc s)) = non_blank (rev acc ++ s).
Proof.
  intros Hne Hsep. induction s as [|c s IH]; intros skip acc Hskip.
  - simpl. now rewrite !app_nil_r.
  - simpl. destruct skip as [|k].
    + destruct sep as [|a sep']; [congruence|].
      simpl starts_with. destruct ((a =? c)%N && starts_with sep' s) eqn:E.
      * apply andb_true_iff in E as [Hac Hs]. apply N.eqb_eq in Hac; subst c.
        destruct (starts_with_app _ _ Hs) as [r Hr].
        simpl concat. rewrite non_blank_app, IH.
        -- simpl rev. rewrite !non_blank_app. simpl.
           inversion Hsep; subst. now rewrite H1.
        -- simpl length. rewrite Nat.sub_0_r. rewrite Hr.
           rewrite firstn_app, Nat.sub_diag, firstn_all. simpl.
           rewrite app_nil_r. now inversion Hsep.
      * rewrite IH by (simpl; constructor).
        simpl rev. now rewrite <- app_assoc.
    + simpl in Hskip. inversion Hskip; subst.
      rewrite IH by assumption.
      rewrite !non_blank_app. simpl. now rewrite H1.
Qed.

Lemma non_blank_split sep s : sep <> [] ->
  Forall (fun c => isspace c = true) sep ->
  non_blank (concat (split sep s)) = non_blank s.
Proof.
  intros Hne Hsep. unfold split.
  now rewrite non_blank_split_go by (auto; simpl; constructor).
Qed.

Lemma non_blank_re_split_go s : forall in_match prev acc,
  non_blank (concat (re_split_go in_match prev acc s)) = non_blank (rev acc ++ s).
Proof.
  induction s as [|c s IH]; intros in_match prev acc; simpl.
  - now rewrite !app_nil_r.
  - destruct (isspace c) eqn:E.
    + destruct in_match.
      * rewrite IH, !non_blank_app. simpl. now rewrite E.
      * destruct (after_terminator prev).
        -- simpl concat. rewrite non_blank_app, IH, !non_blank_app. simpl.
           now rewrite E.
        -- rewrite IH. simpl rev. now rewrite <- app_assoc.
    + rewrite IH. simpl rev. now rewrite <- app_assoc.
Qed.

Lemma non_blank_re_split s :
  non_blank (concat (re_split_sentences s)) = non_blank s.
Proof. unfold re_split_sentences. now rewrite non_blank_re_split_go. Qed.

End StringFacts.

Section TrimFacts.

Lemma head_ok_lstrip s : head_ok (lstrip s).
Proof.
  induction s as [|c s IH]; simpl; [exact I|].
  destruct (isspace c) eqn:E; [exact IH | exact E].
Qed.

Lemma lstrip_head_ok s : head_ok s -> lstrip s = s.
Proof. destruct s as [|c s]; simpl; [reflexivity|]. now intros ->. Qed.

Lemma head_ok_app_l a b : a <> [] -> head_ok (a ++ b) -> head_ok a.
Proof. destruct a; [congruence | trivial]. Qed.

Lemma head_ok_app a b : a <> [] -> head_ok a -> head_ok (a ++ b).
Proof. destruct a; [congruence | trivial]. Qed.

Lemma lstrip_app_keep u c v :
  isspace c = false -> lstrip (u ++ c :: v) = lstrip u ++ c :: v.
Proof.
  intros Hc. induction u as [|d u IH]; simpl; [now rewrite Hc|].
  destruct (isspace d); [exact IH | reflexivity].
Qed.

Lemma trimmed_strip s : trimmed (strip s).
Proof.
  unfold trimmed, strip, rstrip. rewrite rev_involutive.
  split; [|apply head_ok_lstrip].
  pose proof (head_ok_lstrip s) as H.
  destruct (lstrip s) as [|c t]; [exact I|]. simpl in H.
  simpl rev. rewrite lstrip_app_keep by assumption.
  rewrite rev_app_distr. simpl. exact H.
Qed.

Lemma strip_trimmed s : trimmed s -> strip s = s.
Proof.
  intros [H1 H2]. unfold strip, rstrip.
  now rewrite (lstrip_head_ok _ H1), (lstrip_head_ok _ H2), rev_involutive.
Qed.

Lemma trimmed_nil : trimmed [].
Proof. split; exact I. Qed.

Lemma trimmed_join a sep b :
  a <> [] -> b <> [] -> trimmed a -> trimmed b -> trimmed (a ++ sep ++ b).
Proof.
  intros Ha Hb [Ha1 _] [_ Hb2]. split.
  - now apply head_ok_app.
  - rewrite !rev_app_distr, <- app_assoc. apply head_ok_app; [|assumption].
    intros E. apply (f_equal (@rev char)) in E.
    rewrite rev_involutive in E. now subst.
Qed.

Lemma terminator_not_space c : is_terminator c = true -> isspace c = false.
Proof.
  unfold is_terminator. intros H.
  apply orb_true_iff in H as [H|H]; [apply orb_true_iff in H as [H|H]|];
    apply N.eqb_eq in H; subst c; reflexivity.
Qed.

(** A piece that [re.split] returns for a trimmed, non-empty string is
    itself trimmed and non-empty. *)
Lemma re_split_go_trimmed s : forall in_match prev acc,
  head_ok (rev s ++ acc) ->
  (in_match = false -> head_ok (rev acc ++ s)) ->
  (in_match = false -> prev = hd_error acc) ->
  (in_match = true -> acc = []) ->
  rev acc ++ s <> [] ->
  Forall (fun x => x <> [] /\ trimmed x) (re_split_go in_match prev acc s).
Proof.
  induction s as [|c s IH]; intros in_match prev acc Ha Hb Hc Hd He.
  - simpl. constructor; [|constructor].
    rewrite app_nil_r in He. destruct in_match.
    + now rewrite (Hd eq_refl) in He.
    + specialize (Hb eq_refl). rewrite app_nil_r in Hb. simpl in Ha.
      split; [assumption|]. split; [assumption|now rewrite rev_involutive].
  - assert (Hs : isspace c = true -> s <> [] /\ head_ok (rev s ++ [])).
    { intros E. simpl rev in Ha. rewrite <- app_assoc in Ha.
      destruct s as [|d s]; [simpl in Ha; congruence|].
      split; [discriminate|]. rewrite app_nil_r.
      apply head_ok_app_l in Ha; [assumption|].
      simpl. now destruct (rev s). }
    assert (Hkeep : head_ok (rev s ++ c :: acc)).
    { simpl rev in Ha. now rewrite <- app_assoc in Ha. }
    simpl. destruct (isspace c) eqn:E.
    + destruct (Hs eq_refl) as [Hne Hrs]. destruct in_match.
      * rewrite (Hd eq_refl). apply IH; auto; try discriminate.
      * specialize (Hb eq_refl). specialize (Hc eq_refl).
        destruct (after_terminator prev) eqn:T.
        -- destruct acc as [|p acc'];
             [subst prev; discriminate|].
           simpl in Hc; subst prev. simpl in T.
           constructor.
           ++ split; [simpl; now destruct (rev acc')|].
              split.
              ** apply head_ok_app_l in Hb; [assumption|].
                 simpl; now destruct (rev acc').
              ** rewrite rev_involutive. simpl.
                 now apply terminator_not_space.
           ++ apply IH; auto; try discriminate.
        -- apply IH; auto; try discriminate.
           ++ intros _. simpl rev. now rewrite <- app_assoc.
           ++ simpl rev. rewrite <- app_assoc. simpl.
              now destruct (rev acc).
    + apply IH; auto; try discriminate.
      * intros _. destruct in_match.
        -- rewrite (Hd eq_refl). simpl. exact E.
        -- simpl rev. rewrite <- app_assoc. now apply Hb.
      * simpl rev. rewrite <- app_assoc. simpl. now destruct (rev acc).
Qed.

Lemma re_split_sentences_trimmed p :
  p <> [] -> trimmed p ->
  Forall (fun x => x <> [] /\ trimmed x) (re_split_sentences p).
Proof.
  intros Hne [H1 H2]. unfold re_split_sentences.
  apply re_split_go_trimmed; auto; try discriminate.
  now rewrite app_nil_r.
Qed.

End TrimFacts.

(* ================================================================== *)
(** * The chunker: content, shape and size of the chunks *)

Section ChunkerFacts.

Variable max_chunk_size : Z.

Lemma non_blank_nil : non_blank [] = [].
Proof. reflexivity. Qed.

Lemma non_blank_sp : non_blank [sp] = [].
Proof. reflexivity. Qed.

Lemma non_blank_blank_line : non_blank blank_line = [].
Proof. reflexivity. Qed.

Ltac content_norm :=
  cbn [fst snd truthy negb]; rewrite ?concat_app; cbn [concat];
  rewrite ?non_blank_app, ?non_blank_strip, ?non_blank_sp,
    ?non_blank_blank_line, ?non_blank_nil, ?app_nil_r, ?app_nil_l,
    <- ?app_assoc;
  try reflexivity.

Lemma add_sentence_content st s :
  state_content (add_sentence max_chunk_size st s)
  = state_content st ++ non_blank s.
Proof.
  destruct st as [chunks cur]. unfold add_sentence, state_content.
  destruct (len cur + len s <=? max_chunk_size); destruct cur as [|c cur];
    content_norm.
Qed.

Lemma add_sentences_content ss : forall st,
  state_content (fold_left (add_sentence max_chunk_size) ss st)
  = state_content st ++ non_blank (concat ss).
Proof.
  induction ss as [|s ss IH]; intros st; cbn [fold_left concat].
  - now rewrite app_nil_r.
  - now rewrite IH, add_sentence_content, non_blank_app, app_assoc.
Qed.

Lemma add_paragraph_content st p :
  state_content (add_paragraph max_chunk_size st p)
  = state_content st ++ non_blank p.
Proof.
  unfold add_paragraph. rewrite <- (non_blank_strip p).
  destruct (strip p) as [|c q] eqn:E; cbn [truthy negb].
  - now rewrite app_nil_r.
  - destruct (len (c :: q) >? max_chunk_size).
    + now rewrite add_sentences_content, non_blank_re_split.
    + destruct st as [chunks cur]. unfold state_content.
      destruct (len cur + len (c :: q) <=? max_chunk_size);
        [destruct cur as [|d cur]|]; content_norm.
Qed.

Lemma add_paragraphs_content ps : forall st,
  state_content (fold_left (add_paragraph max_chunk_size) ps st)
  = state_content st ++ non_blank (concat ps).
Proof.
  induction ps as [|p ps IH]; intros st; cbn [fold_left concat].
  - now rewrite app_nil_r.
  - now rewrite IH, add_paragraph_content, non_blank_app, app_assoc.
Qed.

Lemma flush_content st : non_blank (concat (flush st)) = state_content st.
Proof.
  destruct st as [chunks [|c cur]]; unfold flush, state_content;
    content_norm.
Qed.

Lemma shaped_strip cur : cur <> [] -> trimmed cur -> shaped (strip cur).
Proof. intros Hne Ht. now rewrite (strip_trimmed _ Ht). Qed.

Lemma push_shaped chunks cur :
  Forall shaped chunks -> cur <> [] -> trimmed cur ->
  Forall shaped (chunks ++ [strip cur]).
Proof.
  intros Hc Hne Ht. apply Forall_app. split; [assumption|].
  constructor; [now apply shaped_strip | constructor].
Qed.

Lemma add_sentence_shaped st s :
  state_shaped st -> shaped s -> state_shaped (add_sentence max_chunk_size st s).
Proof.
  destruct st as [chunks cur]. intros [Hc Ht] [Hne Hs]. simpl in Hc, Ht.
  unfold add_sentence, state_shaped.
  destruct (len cur + len s <=? max_chunk_size); destruct cur as [|c cur];
    cbn [truthy fst snd]; split; auto.
  - apply trimmed_join; auto; discriminate.
  - apply push_shaped; auto; discriminate.
Qed.

Lemma add_sentences_shaped ss : forall st,
  state_shaped st -> Forall shaped ss ->
  state_shaped (fold_left (add_sentence max_chunk_size) ss st).
Proof.
  induction ss as [|s ss IH]; intros st Hst Hss; simpl; [assumption|].
  inversion Hss; subst. apply IH; [|assumption].
  now apply add_sentence_shaped.
Qed.

Lemma add_paragraph_shaped st p :
  state_shaped st -> state_shaped (add_paragraph max_chunk_size st p).
Proof.
  intros Hst. unfold add_paragraph.
  pose proof (trimmed_strip p) as Ht.
  destruct (strip p) as [|c q] eqn:E; cbn [truthy negb]; [assumption|].
  destruct (len (c :: q) >? max_chunk_size) eqn:Hbig.
  - apply add_sentences_shaped; [assumption|].
    apply re_split_sentences_trimmed; [discriminate | assumption].
  - destruct st as [chunks cur]. destruct Hst as [Hc Hcur]. simpl in Hc, Hcur.
    unfold state_shaped.
    destruct (len cur + len (c :: q) <=? max_chunk_size) eqn:Hfit.
    + destruct cur as [|d cur]; cbn [truthy fst snd]; split; auto.
      apply trimmed_join; auto; discriminate.
    + cbn [fst snd]. split; [|assumption].
      apply push_shaped; auto.
      intros ->. apply Z.leb_gt in Hfit.
      assert (len (c :: q) <= max_chunk_size) by
        (destruct (Z.gtb_spec (len (c :: q)) max_chunk_size);
         [discriminate | assumption]).
      unfold len in *. simpl length in *. lia.
Qed.

Lemma add_paragraphs_shaped ps : forall st,
  state_shaped st ->
  state_shaped (fold_left (add_paragraph max_chunk_size) ps st).
Proof.
  induction ps as [|p ps IH]; intros st Hst; simpl; [assumption|].
  apply IH. now apply add_paragraph_shaped.
Qed.

Lemma flush_shaped st : state_shaped st -> Forall shaped (flush st).
Proof.
  destruct st as [chunks [|c cur]]; intros [Hc Ht]; cbn [fst snd] in *;
    unfold flush; cbn [truthy]; [assumption|].
  apply push_shaped; auto; discriminate.
Qed.

Lemma chunks_shaped text :
  Forall shaped (split_text_into_chunks text max_chunk_size).
Proof.
  unfold split_text_into_chunks. apply flush_shaped, add_paragraphs_shaped.
  split; [constructor | apply trimmed_nil].
Qed.

End ChunkerFacts.

Section SizeFacts.

Variable max_chunk_size : Z.
Variable Q : str -> Prop.

Lemma len_app (a b : str) : len (a ++ b) = len a + len b.
Proof. unfold len. rewrite length_app. lia. Qed.

Lemma push_sized chunks cur :
  Forall (size_ok max_chunk_size Q) chunks ->
  trimmed cur -> size_ok max_chunk_size Q cur ->
  Forall (size_ok max_chunk_size Q) (chunks ++ [strip cur]).
Proof.
  intros Hc Ht Hok. rewrite (strip_trimmed _ Ht).
  apply Forall_app. split; [assumption|].
  constructor; [assumption | constructor].
Qed.

Lemma add_sentence_sized st s :
  trimmed (snd st) -> Q s ->
  state_sized max_chunk_size Q st ->
  state_sized max_chunk_size Q (add_sentence max_chunk_size st s).
Proof.
  destruct st as [chunks cur]. cbn [snd]. intros Ht Hs [Hc Hcur].
  cbn [fst snd] in Hc, Hcur. unfold add_sentence, state_sized.
  destruct (Z.leb_spec (len cur + len s) max_chunk_size) as [Hfit|Hfit];
    destruct cur as [|c cur]; cbn [truthy fst snd]; split; auto.
  - right. now right.
  - right. left. rewrite !len_app. change (len [sp]) with 1. lia.
  - right. now right.
  - apply push_sized; auto. now destruct Hcur.
  - right. now right.
Qed.

Lemma add_sentences_sized ss : forall st,
  state_shaped st -> Forall shaped ss -> Forall Q ss ->
  state_sized max_chunk_size Q st ->
  state_sized max_chunk_size Q (fold_left (add_sentence max_chunk_size) ss st).
Proof.
  induction ss as [|s ss IH]; intros st Hsh Hss HQ Hst; cbn [fold_left];
    [assumption|].
  inversion Hss; subst. inversion HQ; subst.
  apply IH; auto.
  - now apply add_sentence_shaped.
  - apply add_sentence_sized; auto. now destruct Hsh.
Qed.

Lemma add_paragraph_sized st p :
  state_shaped st -> Forall Q (units_of_paragraph p) ->
  state_sized max_chunk_size Q st ->
  state_sized max_chunk_size Q (add_paragraph max_chunk_size st p).
Proof.
  intros Hsh HQ Hst. unfold add_paragraph. unfold units_of_paragraph in HQ.
  pose proof (trimmed_strip p) as Ht.
  destruct (strip p) as [|c q] eqn:E; cbn [truthy negb] in *; [assumption|].
  destruct (Z.gtb_spec (len (c :: q)) max_chunk_size) as [Hbig|Hsmall].
  - apply add_sentences_sized; auto.
    apply re_split_sentences_trimmed; [discriminate | assumption].
  - destruct st as [chunks cur]. destruct Hst as [Hc Hcur].
    destruct Hsh as [_ Htc]. cbn [fst snd] in *. unfold state_sized.
    destruct (Z.leb_spec (len cur + len (c :: q)) max_chunk_size)
      as [Hfit|Hfit].
    + destruct cur as [|d cur]; cbn [truthy fst snd]; split; auto.
      * right. left. lia.
      * right. left. rewrite !len_app. change (len blank_line) with 2. lia.
    + cbn [fst snd]. split; [|right; left; lia].
      apply push_sized; auto.
      destruct Hcur as [->|Hcur]; [|assumption].
      change (len []) with 0 in Hfit. lia.
Qed.

Lemma add_paragraphs_sized ps : forall st,
  state_shaped st -> Forall (fun p => Forall Q (units_of_paragraph p)) ps ->
  state_sized max_chunk_size Q st ->
  state_sized max_chunk_size Q (fold_left (add_paragraph max_chunk_size) ps st).
Proof.
  induction ps as [|p ps IH]; intros st Hsh HQ Hst; cbn [fold_left];
    [assumption|].
  inversion HQ; subst. apply IH; auto.
  - now apply add_paragraph_shaped.
  - now apply add_paragraph_sized.
Qed.

Lemma flush_sized st :
  state_shaped st -> state_sized max_chunk_size Q st ->
  Forall (size_ok max_chunk_size Q) (flush st).
Proof.
  destruct st as [chunks [|c cur]]; intros [_ Ht] [Hc Hcur];
    cbn [fst snd] in *; unfold flush; cbn [truthy]; [assumption|].
  apply push_sized; auto. destruct Hcur; [discriminate | assumption].
Qed.

End SizeFacts.

(** What does hold for the size of the chunks: a chunk that is not a single
    unit of the text is at most two characters over the limit (the length
    of the separator that the fit test leaves out). *)
Lemma chunk_size_slack (text : str) (max_chunk_size : Z) :
  Forall (fun c => len c <= max_chunk_size + 2 \/ In c (units text))
         (split_text_into_chunks text max_chunk_size).
Proof.
  unfold split_text_into_chunks.
  apply (flush_sized max_chunk_size (fun c => In c (units text))).
  - apply add_paragraphs_shaped. split; [constructor | apply trimmed_nil].
  - apply add_paragraphs_sized.
    + split; [constructor | apply trimmed_nil].
    + apply Forall_forall. intros p Hp. apply Forall_forall. intros s Hs.
      unfold units. apply in_flat_map. now exists p.
    + split; [constructor | now left].
Qed.

(** C3.  Whatever the text and the size limit, the chunks put end to end
    hold, whitespace apart, exactly the non-whitespace characters of the
    text, in the same order: nothing is lost and nothing is repeated. *)
Theorem chunks_preserve_content (text : str) (max_chunk_size : Z) :
  non_blank (concat (split_text_into_chunks text max_chunk_size))
  = non_blank text.
Proof.
  unfold split_text_into_chunks.
  rewrite flush_content, add_paragraphs_content.
  unfold state_content. simpl.
  apply non_blank_split; [discriminate | repeat constructor].
Qed.

(** C9.  For every text and every positive size limit, each chunk returned
    is non-empty and equals its own stripped form. *)
Theorem chunks_nonempty_stripped (text : str) (max_chunk_size : Z) :
  0 < max_chunk_size ->
  Forall (fun c => c <> [] /\ strip c = c)
         (split_text_into_chunks text max_chunk_size).
Proof.
  intros _. eapply Forall_impl; [|apply chunks_shaped].
  intros c [Hne Ht]. split; [assumption | now apply strip_trimmed].
Qed.

Lemma chunks_nonempty_stripped_witness :
  0 < 60 /\
  Forall (fun c => c <> [] /\ strip c = c)
         (split_text_into_chunks scenario_text 60).
Proof.
  split; [lia | apply (chunks_nonempty_stripped scenario_text 60); lia].
Defined.

(** C4, as the specification states it, fails: the scenario text with
    [max_chunk_size = 60] is not cut into its two paragraphs. *)
Lemma scenario_is_not_two_chunks :
  split_text_into_chunks scenario_text 60 <> [para_one; para_two].
Proof. vm_compute. discriminate. Qed.

(** C4, amended.  The two paragraphs have 9 and 41 characters, and 9 + 41
    is not above 60: the second paragraph joins the first in the buffer,
    and the result is one chunk, the input itself.  The two paragraphs come
    out as two chunks when the limit is 49. *)
Theorem scenario_is_one_chunk :
  len para_one = 9 /\ len para_two = 41 /\
  split_text_into_chunks scenario_text 60 = [scenario_text] /\
  split_text_into_chunks scenario_text 49 = [para_one; para_two].
Proof. repeat split; reflexivity. Qed.

(** C1 at a failing input.  Two paragraphs of four characters and
    [max_chunk_size = 8]: the test of line 46 adds 4 and 4 and lets the
    second paragraph join the first, and the chunk, with the blank line
    between them, has 10 characters.  It is none of the units of the text.
    The same happens on the sentence path of line 39 with the single space. *)
Theorem joined_chunk_exceeds_limit :
  split_text_into_chunks two_short_paragraphs 8 = [two_short_paragraphs] /\
  len two_short_paragraphs = 10 /\
  units two_short_paragraphs = [lit "aaaa"; lit "bbbb"] /\
  ~ size_bounded two_short_paragraphs 8 /\
  split_text_into_chunks two_short_sentences 8 = [two_short_sentences] /\
  len two_short_sentences = 9 /\
  units two_short_sentences = [lit "aaa."; lit "bbb."] /\
  ~ size_bounded two_short_sentences 8.
Proof.
  repeat split; try reflexivity.
  - intros H. inversion H as [|c l [Hlen|Hin] _]; subst.
    + vm_compute in Hlen. now apply Hlen.
    + vm_compute in Hin. destruct Hin as [E|[E|[]]]; discriminate E.
  - intros H. inversion H as [|c l [Hlen|Hin] _]; subst.
    + vm_compute in Hlen. now apply Hlen.
    + vm_compute in Hin. destruct Hin as [E|[E|[]]]; discriminate E.
Qed.

(* ================================================================== *)
(** * The batch assembler *)

Section Batches.

Context {A : Type}.
Implicit Types (l : list A) (b k m : nat).

Lemma firstn_plus_skipn l : forall a b,
  firstn (a + b) l = firstn a l ++ firstn b (skipn a l).
Proof.
  induction l as [|x l IH]; intros a b.
  - now rewrite skipn_nil, !firstn_nil.
  - destruct a as [|a]; simpl; [reflexivity|]. now rewrite IH.
Qed.

(** The first [m] groups of [b] put end to end are the first [m * b]
    elements. *)
Lemma concat_groups l b m :
  concat (map (fun k => firstn b (skipn (k * b) l)) (seq 0 m))
  = firstn (m * b) l.
Proof.
  induction m as [|m IH]; [reflexivity|].
  rewrite seq_S, map_app, concat_app, IH. simpl map. simpl concat.
  rewrite app_nil_r. simpl Nat.add.
  replace (S m * b)%nat with (m * b + b)%nat by lia.
  now rewrite firstn_plus_skipn.
Qed.

Lemma length_group l b k :
  length (firstn b (skipn (k * b) l)) = Nat.min b (length l - k * b).
Proof. now rewrite length_firstn, length_skipn. Qed.

Lemma firstn_clip l : forall a, firstn (Nat.min a (length l)) l = firstn a l.
Proof.
  induction l as [|x l IH]; intros [|a]; simpl; try reflexivity.
  now rewrite IH.
Qed.

(** A slice that starts at a non-negative index and has a positive width. *)
Lemma py_slice_group l (i w : Z) :
  0 <= i -> 0 < w ->
  py_slice l i (i + w) = firstn (Z.to_nat w) (skipn (Z.to_nat i) l).
Proof.
  intros Hi Hw. unfold py_slice, clamp_index.
  set (n := Z.of_nat (length l)).
  destruct (Z.ltb_spec i 0); [lia|].
  destruct (Z.ltb_spec (i + w) 0); [lia|].
  destruct (Z_lt_le_dec i n) as [Hin|Hin].
  - rewrite (Z.min_r n i), (Z.max_r 0 i) by lia.
    rewrite <- (firstn_clip _ (Z.to_nat w)). f_equal.
    rewrite length_skipn. subst n. lia.
  - rewrite !skipn_all2 by (subst n; lia). now rewrite !firstn_nil.
Qed.

Lemma range_length_up (n step : Z) :
  0 <= n -> 0 < step -> range_length 0 n step = (n + step - 1) / step.
Proof.
  intros Hn Hs. unfold range_length.
  destruct (Z.ltb_spec 0 step); [|lia].
  destruct (Z.leb_spec n 0).
  - assert (n = 0) by lia. subst n. symmetry. apply Z.div_small. lia.
  - replace (n + step - 1) with (n - 0 - 1 + 1 * step) by lia.
    now rewrite Z.div_add by lia.
Qed.

(** With a positive [batch_size] the comprehension of line 146 cuts the
    list into consecutive groups. *)
Lemma assemble_groups l (batch_size : Z) :
  0 < batch_size ->
  assemble l batch_size
  = Ok (map (fun k => firstn (Z.to_nat batch_size)
                             (skipn (k * Z.to_nat batch_size) l))
            (seq 0 (Z.to_nat ((Z.of_nat (length l) + batch_size - 1)
                              / batch_size)))).
Proof.
  intros Hb. unfold assemble, py_range.
  destruct (Z.eqb_spec batch_size 0); [lia|].
  rewrite range_length_up by lia. f_equal.
  rewrite map_map. apply map_ext. intros k.
  rewrite py_slice_group by lia. f_equal. f_equal. lia.
Qed.

Lemma nth_map_seq (f : nat -> list A) m k :
  (k < m)%nat -> nth k (map f (seq 0 m)) [] = f k.
Proof.
  intros Hk. rewrite (nth_indep _ [] (f 0%nat)) by now rewrite length_map, length_seq.
  rewrite map_nth, seq_nth by assumption. reflexivity.
Qed.

End Batches.

(** C5.  For a sequence of [N] chunks and a batch size [B > 0] the batches
    are [ceil(N/B)] in number, all but the last have exactly [B] elements,
    the last has [N mod B] elements ([B] when [B] divides [N]), and the
    batches put end to end are the sequence itself. *)
Theorem assemble_partitions {A} (all_chunks : list A) (batch_size : Z) :
  0 < batch_size ->
  let n := Z.of_nat (length all_chunks) in
  exists batches,
    assemble all_chunks batch_size = Ok batches /\
    Z.of_nat (length batches) = (n + batch_size - 1) / batch_size /\
    (forall k, (S k < length batches)%nat ->
               Z.of_nat (length (nth k batches [])) = batch_size) /\
    (batches <> [] ->
       Z.of_nat (length (last batches []))
       = if n mod batch_size =? 0 then batch_size else n mod batch_size) /\
    concat batches = all_chunks.
Proof.
  intros Hb n. rewrite (assemble_groups _ _ Hb). fold n.
  set (b := Z.to_nat batch_size).
  set (q := (n + batch_size - 1) / batch_size).
  assert (Hq : 0 <= q) by (apply Z.div_pos; lia).
  assert (Hlo : (q - 1) * batch_size <= n - 1 /\ n <= q * batch_size).
  { pose proof (Z.div_mod (n + batch_size - 1) batch_size ltac:(lia)) as E.
    pose proof (Z.mod_pos_bound (n + batch_size - 1) batch_size Hb).
    fold q in E. nia. }
  assert (Hbz : Z.of_nat b = batch_size) by (subst b; lia).
  assert (Hn : Z.of_nat (length all_chunks) = n) by reflexivity.
  eexists. split; [reflexivity|].
  rewrite length_map, length_seq.
  split; [lia|]. clearbody b n q. split; [|split].
  - intros k Hk. rewrite nth_map_seq by lia.
    rewrite length_group.
    assert (Z.of_nat (S k) * batch_size <= (q - 1) * batch_size)
      by (apply Z.mul_le_mono_nonneg_r; lia).
    nia.
  - intros Hne.
    destruct (Z.to_nat q) as [|m'] eqn:Em; [now elim Hne|].
    rewrite seq_S, map_app. cbn [map]. rewrite last_last. simpl Nat.add.
    rewrite length_group.
    assert (Hm : Z.of_nat m' = q - 1) by lia.
    pose proof (Z.div_mod n batch_size ltac:(lia)) as E.
    pose proof (Z.mod_pos_bound n batch_size Hb) as Hr.
    set (d := n / batch_size) in *. set (r := n mod batch_size) in *.
    clearbody d r.
    assert (Hmb : Z.of_nat (m' * b) = (q - 1) * batch_size) by nia.
    destruct (Z.eqb_spec r 0) as [Hz|Hz].
    + assert (d = q) by nia. subst d. nia.
    + assert (d = q - 1) by nia. subst d. nia.
  - rewrite concat_groups. apply firstn_all2. nia.
Qed.

Lemma assemble_partitions_witness :
  0 < 2 /\
  let n := Z.of_nat (length four_chunks) in
  exists batches,
    assemble four_chunks 2 = Ok batches /\
    Z.of_nat (length batches) = (n + 2 - 1) / 2 /\
    (forall k, (S k < length batches)%nat ->
               Z.of_nat (length (nth k batches [])) = 2) /\
    (batches <> [] ->
       Z.of_nat (length (last batches []))
       = if n mod 2 =? 0 then 2 else n mod 2) /\
    concat batches = four_chunks.
Proof.
  split; [lia | apply (assemble_partitions four_chunks 2); lia].
Defined.

(* ================================================================== *)
(** * The pipeline *)

Section Steady.

Context {P : event -> Prop}.

Lemma steady_ret {A} (a : A) : steady P (ret a).
Proof. intros w. split; [reflexivity|]. exists []. now rewrite app_nil_r. Qed.

Lemma steady_raise {A} e : steady P (@raise A e).
Proof. intros w. split; [reflexivity|]. exists []. now rewrite app_nil_r. Qed.

Lemma steady_lift {A} (r : answer A) : steady P (lift r).
Proof. intros w. split; [reflexivity|]. exists []. now rewrite app_nil_r. Qed.

Lemma steady_emit ev : P ev -> steady P (emit ev).
Proof. intros H w. split; [reflexivity|]. exists [ev]. now split; [|constructor]. Qed.

Lemma steady_print line : P (Print line) -> steady P (print line).
Proof. apply steady_emit. Qed.

Lemma steady_call ev answer : P ev -> steady P (call ev answer).
Proof. intros H w. split; [reflexivity|]. exists [ev]. now split; [|constructor]. Qed.

Lemma steady_bind {A B} (m : M A) (k : A -> M B) :
  steady P m -> (forall a, steady P (k a)) -> steady P (bind m k).
Proof.
  intros Hm Hk w. unfold bind.
  destruct (Hm w) as [Ht [evs [Htr Hevs]]].
  destruct (m w) as [[a|e] w1]; simpl in *.
  - destruct (Hk a w1) as [Ht' [evs' [Htr' Hevs']]].
    split; [congruence|]. exists (evs ++ evs').
    split; [now rewrite Htr', Htr, app_assoc | now apply Forall_app].
  - split; [assumption|]. now exists evs.
Qed.

Lemma steady_try_except {A} (m : M A) handler :
  steady P m -> (forall e, steady P (handler e)) -> steady P (try_except m handler).
Proof.
  intros Hm Hh w. unfold try_except.
  destruct (Hm w) as [Ht [evs [Htr Hevs]]].
  destruct (m w) as [[a|[e|name]] w1]; simpl in *.
  - split; [assumption|]. now exists evs.
  - destruct (Hh e w1) as [Ht' [evs' [Htr' Hevs']]].
    split; [congruence|]. exists (evs ++ evs').
    split; [now rewrite Htr', Htr, app_assoc | now apply Forall_app].
  - split; [assumption|]. now exists evs.
Qed.

End Steady.

(** ** Computations that raise instances of [Exception] only *)

Lemma tame_ret {A} (a : A) : tame (ret a).
Proof. now intros w. Qed.

Lemma tame_lift {A} (r : answer A) : tame (lift r).
Proof. intros w. now destruct r. Qed.

Lemma tame_emit ev : tame (emit ev).
Proof. now intros w. Qed.

Lemma tame_raise {A} (e : exn) : tame (@raise A e).
Proof. now intros w. Qed.

Lemma tame_call ev reply :
  (forall h, interrupts (reply h) = false) -> tame (call ev reply).
Proof. intros H w. apply H. Qed.

Lemma tame_bind {A B} (m : M A) (k : A -> M B) :
  tame m -> (forall a, tame (k a)) -> tame (bind m k).
Proof.
  intros Hm Hk w. unfold bind. specialize (Hm w).
  destruct (m w) as [[a|e] w1]; [apply Hk | exact Hm].
Qed.

Lemma tame_try_except {A} (m : M A) handler :
  tame m -> (forall e, tame (handler e)) -> tame (try_except m handler).
Proof.
  intros Hm Hh w. unfold try_except. specialize (Hm w).
  destruct (m w) as [[a|[e|name]] w1]; [reflexivity | apply Hh | exact Hm].
Qed.

Ltac tame_step :=
  first [ apply tame_bind; [|intros ?]
        | apply tame_try_except; [|intros ?]
        | apply tame_ret | apply tame_lift | apply tame_emit
        | apply tame_raise ].

Lemma returns_try_except {A} (m : M A) handler :
  tame m -> (forall e, returns (handler e)) -> returns (try_except m handler).
Proof.
  intros Hm Hh w. unfold try_except. specialize (Hm w).
  destruct (m w) as [[a|[e|name]] w1];
    [now exists a | apply Hh | discriminate Hm].
Qed.

Lemma returns_bind {A B} (m : M A) (k : A -> M B) :
  returns m -> (forall a, returns (k a)) -> returns (bind m k).
Proof.
  intros Hm Hk w. unfold bind. destruct (Hm w) as [a Ha].
  destruct (m w) as [[a'|e] w1]; simpl in Ha; [apply Hk | discriminate].
Qed.

Lemma returns_ret {A} (a : A) : returns (ret a).
Proof. intros w. now exists a. Qed.

Lemma returns_emit ev : returns (emit ev).
Proof. intros w. now exists tt. Qed.

Ltac steady_step :=
  first [ apply steady_bind; [|intros ?]
        | apply steady_try_except; [|intros ?]
        | apply steady_print; reflexivity
        | apply steady_emit; reflexivity
        | apply steady_call; reflexivity
        | apply steady_ret | apply steady_lift | apply steady_raise ].

(** ** Extraction never touches the sink, never reads the clock and never
    raises *)

Lemma process_pdf_steady env f : steady extraction_event (process_pdf env f).
Proof. unfold process_pdf. repeat steady_step. Qed.

Lemma process_file_steady env f : steady extraction_event (process_file env f).
Proof.
  unfold process_file. steady_step; [steady_step|].
  steady_step; [|repeat steady_step].
  repeat match goal with
         | |- context [if ?c then _ else _] => destruct c
         end; repeat steady_step; apply process_pdf_steady.
Qed.

Lemma process_pdf_tame env f : tame (process_pdf env f).
Proof. unfold process_pdf, print. repeat tame_step. Qed.

Lemma process_file_returns env f : returns (process_file env f).
Proof.
  unfold process_file. apply returns_bind; [apply returns_emit|]. intros _.
  apply returns_try_except.
  - unfold print.
    repeat match goal with
           | |- context [if ?c then _ else _] => destruct c
           end; repeat tame_step; apply process_pdf_tame.
  - intros e.
    apply returns_bind; [apply returns_emit | intros; apply returns_ret].
Qed.

Lemma process_files_steady env fs : forall acc,
  steady extraction_event (process_files env fs acc).
Proof.
  induction fs as [|f fs IH]; intros acc; simpl.
  - apply steady_ret.
  - apply steady_bind; [apply process_file_steady | intros; apply IH].
Qed.

Lemma process_files_returns env fs : forall acc,
  returns (process_files env fs acc).
Proof.
  induction fs as [|f fs IH]; intros acc; simpl.
  - apply returns_ret.
  - apply returns_bind; [apply process_file_returns | intros; apply IH].
Qed.

Lemma process_file_announced env f w :
  exists evs, trace (snd (process_file env f w)) = trace w ++ ProcessFile f :: evs.
Proof.
  unfold process_file, bind at 1. simpl.
  match goal with |- context [try_except ?m ?h ?w1] =>
    destruct (@steady_try_except extraction_event _ m h) with (w := w1)
      as [_ [evs [Htr _]]]
  end.
  - repeat match goal with
           | |- context [if ?c then _ else _] => destruct c
           end; repeat steady_step; apply process_pdf_steady.
  - intros e. repeat steady_step.
  - exists evs. rewrite Htr. simpl. now rewrite <- app_assoc.
Qed.

(** Every file of the walk is handed to [process_file]. *)
Lemma process_files_visits env fs : forall acc w f,
  In f fs -> In (ProcessFile f) (trace (snd (process_files env fs acc w))).
Proof.
  induction fs as [|g fs IH]; intros acc w f Hin; [contradiction|].
  simpl. unfold bind.
  destruct (process_file_returns env g w) as [r Hr].
  destruct (process_file_announced env g w) as [evs Hevs].
  destruct (process_file env g w) as [[r'|e] w1]; simpl in *; [|discriminate].
  destruct Hin as [->|Hin].
  - match goal with |- context [process_files env fs ?a w1] =>
      destruct (process_files_steady env fs a w1) as [_ [evs' [Htr _]]];
      rewrite Htr
    end.
    rewrite Hevs. apply in_or_app. left. apply in_or_app. right. now left.
  - now apply IH.
Qed.

(** ** The sink side *)

Lemma add_objects_steady sink chunks : steady not_rate (add_objects sink chunks).
Proof.
  induction chunks as [|c rest IH]; simpl; [apply steady_ret|].
  apply steady_bind; [now apply steady_call | intros; apply IH].
Qed.

Lemma with_batch_steady {A} sink (body : M A) :
  steady not_rate body -> steady not_rate (with_batch sink body).
Proof.
  intros Hb. unfold with_batch.
  apply steady_bind; [now apply steady_call|]. intros _ w.
  destruct (Hb w) as [Ht [evs [Htr Hevs]]].
  assert (Hexit : forall (k : M A),
             steady not_rate k ->
             steady not_rate (call BatchExit (leave sink) ;;; k)).
  { intros k Hk. apply steady_bind; [now apply steady_call | intros; apply Hk]. }
  destruct (body w) as [[a|e] w1]; simpl in Ht, Htr.
  - destruct (Hexit (ret a) (steady_ret a) w1) as [Ht' [evs' [Htr' Hevs']]].
    split; [congruence|]. exists (evs ++ evs').
    split; [now rewrite Htr', Htr, app_assoc | now apply Forall_app].
  - destruct (Hexit (raise e) (steady_raise e) w1) as [Ht' [evs' [Htr' Hevs']]].
    split; [congruence|]. exists (evs ++ evs').
    split; [now rewrite Htr', Htr, app_assoc | now apply Forall_app].
Qed.

Lemma process_batch_steady sink chunks :
  steady not_rate (process_batch sink chunks).
Proof.
  unfold process_batch, sink_submission. apply steady_try_except.
  - apply with_batch_steady, add_objects_steady.
  - intros e. now apply steady_print.
Qed.

Lemma add_objects_tame sink chunks :
  polite sink -> tame (add_objects sink chunks).
Proof.
  intros [_ [Hadd _]].
  induction chunks as [|c rest IH]; simpl; [apply tame_ret|].
  apply tame_bind; [|intros; apply IH]. apply tame_call. intros h. apply Hadd.
Qed.

(** With a polite sink the body of the [try] raises nothing that line 131
    lets through. *)
Lemma sink_submission_tame sink chunks :
  polite sink -> tame (sink_submission sink chunks).
Proof.
  intros Hp. pose proof Hp as [Henter [_ Hleave]].
  unfold sink_submission, with_batch.
  apply tame_bind; [now apply tame_call|]. intros _ w.
  pose proof (add_objects_tame sink chunks Hp w) as Hb.
  destruct (add_objects sink chunks w) as [[a|e] w1]; cbn [fst] in Hb.
  - apply tame_bind; [now apply tame_call | intros; apply tame_ret].
  - apply tame_bind; [now apply tame_call|]. intros _ w2. exact Hb.
Qed.

(** [process_batch] swallows whatever a polite sink raises. *)
Lemma process_batch_result sink chunks w :
  polite sink -> fst (process_batch sink chunks w) = Ok tt.
Proof.
  intros Hp. unfold process_batch, try_except.
  pose proof (sink_submission_tame sink chunks Hp w) as Ht.
  destruct (sink_submission sink chunks w) as [[[]|[e|name]] w1];
    [reflexivity | reflexivity | discriminate Ht].
Qed.

Lemma submit_to_result sink batch w :
  polite sink -> fst (submit_to sink batch w) = Ok (Ok tt).
Proof.
  intros Hp. unfold submit_to, bind. simpl.
  match goal with |- context [process_batch sink batch ?w1] =>
    pose proof (process_batch_result sink batch w1 Hp) as H;
    destruct (process_batch sink batch w1) as [r w2]
  end.
  simpl in *. now rewrite H.
Qed.

(** The sink of a run is polite. *)
Lemma sink_of_polite env : polite (sink_of env).
Proof.
  repeat split; intros; cbn [sink_of enter add_object leave];
    match goal with |- interrupts (inject ?r) = false => now destruct r end.
Qed.

Lemma submit_result env batch w : fst (submit env batch w) = Ok (Ok tt).
Proof. apply submit_to_result, sink_of_polite. Qed.

Lemma submit_steady env batch : steady not_rate (submit env batch).
Proof.
  unfold submit, submit_to.
  apply steady_bind; [now apply steady_emit|]. intros _ w.
  destruct (process_batch_steady (sink_of env) batch w) as [Ht Htr].
  destruct (process_batch (sink_of env) batch w) as [r w1]. now split.
Qed.

Lemma submit_all_steady env batches : steady not_rate (submit_all env batches).
Proof.
  induction batches as [|b rest IH]; simpl; [apply steady_ret|].
  apply steady_bind; [apply submit_steady|]. intros f.
  apply steady_bind; [apply IH | intros; apply steady_ret].
Qed.

(** Every future of the pool holds [None]. *)
Lemma submit_all_result env batches : forall w,
  fst (submit_all env batches w) = Ok (repeat (Ok tt) (length batches)).
Proof.
  induction batches as [|b rest IH]; intros w; simpl; [reflexivity|].
  unfold bind at 1. pose proof (submit_result env b w) as Hs.
  destruct (submit env b w) as [r w1]. simpl in Hs. subst r.
  unfold bind. specialize (IH w1).
  destruct (submit_all env rest w1) as [fs w2]. simpl in IH. now subst fs.
Qed.



(** The run of the batches: the timer is read, the pool is filled, and the
    loop goes over futures that all hold [None]. *)
Lemma run_batches_unfolds env batch_size batches w :
  run_batches env batch_size batches w
  = let start_time := clock env (ticks w) in
    let w2 := snd (submit_all env batches
                     {| ticks := S (ticks w); trace := trace w |}) in
    match collect env batch_size start_time
            (repeat (Ok tt) (length batches)) 0 w2 with
    | (Ok completed, w3) => (Ok (start_time, completed), w3)
    | (Raise e, w3) => (Raise e, w3)
    end.
Proof.
  unfold run_batches, bind, time_time. cbv zeta.
  match goal with |- context [submit_all env batches ?w1] =>
    pose proof (submit_all_result env batches w1) as Hr;
    destruct (submit_all env batches w1) as [fs w2]
  end.
  simpl in Hr. subst fs. simpl snd.
  destruct (collect env batch_size (clock env (ticks w))
              (repeat (Ok tt) (length batches)) 0 w2) as [[c|e] w3];
    reflexivity.
Qed.


(** ** The claims on the scheduler *)


Example cancelled_future :
  fst (submit_to cancelled_sink [text_chunk (lit "a")] initial_world)
  = Ok (Raise (BaseException "CancelledError")).
Proof. reflexivity. Qed.



Example refused_submission_raises :
  fst (sink_submission (sink_of first_batch_refused_env) four_chunks
         initial_world)
  = Raise (Exception (LibraryError "connection refused")).
Proof. reflexivity. Qed.

Example assemble_four_by_two : assemble four_chunks 2 = Ok two_full_batches.
Proof. reflexivity. Qed.

Example refused_batch_counts :
  final_completed first_batch_refused_env 2 two_full_batches initial_world
  = Ok 4 /\
  delivered first_batch_refused_env two_full_batches
    (snd (time_time first_batch_refused_env initial_world)) = 2.
Proof. split; vm_compute; reflexivity. Qed.




(** C6, as the specification states it, fails: with [batch_size = 0] the
    file of the directory is processed before the error. *)
Lemma files_processed_before_error :
  ~ run_does_not_start one_file_env "./directory".
Proof.
  intros H. apply (H "directory/notes.txt"%string). vm_compute. now left.
Qed.

(** With [batch_size = 0] the run is the extraction followed by the error
    of [range]. *)
Lemma import_zero_unfolds env file_path w :
  exists cs w1,
    process_files env (walk env file_path) [] w = (Ok cs, w1) /\
    import_with_batching env file_path 0 w
    = (Raise (Exception (ValueError "range() arg 3 must not be zero")),
       {| ticks := ticks w1;
          trace := trace w1
                   ++ [Print (ErrorDuringImport
                                (ValueError "range() arg 3 must not be zero"))] |}).
Proof.
  destruct (process_files_returns env (walk env file_path) [] w) as [cs Hr].
  destruct (process_files env (walk env file_path) [] w) as [r w1] eqn:E.
  simpl in Hr. subst r. exists cs, w1. split; [reflexivity|].
  unfold import_with_batching, try_except. unfold bind at 1. rewrite E.
  reflexivity.
Qed.

(** C6, amended.  With [batch_size = 0] the run ends with the [ValueError]
    of [range]: it is printed, as the last line of the run, and raised
    again to the caller; by then every file of the walk has been handed to
    [process_file], and nothing has reached the sink: no batch is
    submitted, and the timer is not started. *)
Theorem zero_batch_size_raises env file_path :
  run_result env file_path 0
  = Raise (ValueError "range() arg 3 must not be zero") /\
  (exists tr,
     run_trace env file_path 0
     = tr ++ [Print (ErrorDuringImport
                       (ValueError "range() arg 3 must not be zero"))]) /\
  (forall f, In f (walk env file_path) ->
             In (ProcessFile f) (run_trace env file_path 0)) /\
  (forall ev, In ev (run_trace env file_path 0) -> is_sink_event ev = false) /\
  ticks (snd (import_with_batching env file_path 0 initial_world)) = 0%nat.
Proof.
  unfold run_result, run_trace.
  destruct (import_zero_unfolds env file_path initial_world)
    as [cs [w1 [Hp ->]]].
  destruct (process_files_steady env (walk env file_path) [] initial_world)
    as [Ht [evs [Htr Hevs]]].
  pose proof (process_files_visits env (walk env file_path) [] initial_world)
    as Hv.
  rewrite Hp in Ht, Htr, Hv. simpl in Ht, Htr, Hv. cbn [fst snd ticks trace].
  split; [reflexivity|]. split; [now exists (trace w1)|].
  split; [|split].
  - intros f Hf. apply in_or_app. left. now apply Hv.
  - intros ev Hin. apply in_app_or in Hin as [Hin|[<-|[]]]; [|reflexivity].
    rewrite Htr in Hin. rewrite Forall_forall in Hevs. now apply Hevs.
  - assumption.
Qed.




(** C7 at a failing input.  The directory has no file and the clock gives
    the same reading at lines 147 and 164: the division of line 165 raises
    [ZeroDivisionError], which the run re-raises after printing it. *)
Theorem zero_elapsed_time_raises :
  run_result stalled_clock_env "./directory" 128
  = Raise division_by_zero /\
  run_trace stalled_clock_env "./directory" 128
  = [Print (ErrorDuringImport division_by_zero)].
Proof. split; reflexivity. Qed.

(** Events that are not rates leave the progress report as it is. *)
Lemma progress_observations_app tr evs :
  Forall not_rate evs ->
  progress_observations (tr ++ evs) = progress_observations tr.
Proof.
  intros Hevs. induction tr as [|ev tr IH].
  - simpl. induction Hevs as [|ev evs Hev _ IH]; [reflexivity|].
    destruct ev as [| | | | |[]]; simpl; try exact IH. contradiction.
  - destruct ev as [| | | | |[]]; simpl; now rewrite IH.
Qed.

Lemma default_batch_size_misses j :
  0 < j < 625 -> ((128 * j) mod 5000 =? 0) = false.
Proof.
  intros Hj. apply Z.eqb_neq. intros E.
  apply Z.mod_divide in E; [|lia]. destruct E as [q E]. lia.
Qed.

(** With [batch_size = 128] the test of line 158 fails for each of the
    first 624 batches: the loop neither prints nor reads the clock. *)
Lemma collect_default_silent env start_time k : forall j w,
  0 <= j -> j + Z.of_nat k < 625 ->
  collect env 128 start_time (repeat (Ok tt) k) (128 * j) w
  = (Ok (128 * (j + Z.of_nat k)), w).
Proof.
  induction k as [|k IH]; intros j w Hj Hk.
  - replace (j + Z.of_nat 0) with j by lia. reflexivity.
  - cbn [repeat collect]. unfold bind at 1, future_result at 1.
    replace (128 * j + 128) with (128 * (j + 1)) by lia.
    rewrite default_batch_size_misses by lia.
    unfold bind at 1, ret at 1. rewrite IH by lia.
    replace (j + 1 + Z.of_nat k) with (j + Z.of_nat (S k)) by lia.
    reflexivity.
Qed.

Lemma run_batches_default_silent env batches w :
  Z.of_nat (length batches) < 625 ->
  final_completed env 128 batches w = Ok (128 * Z.of_nat (length batches)) /\
  progress_observations (trace (snd (run_batches env 128 batches w)))
  = progress_observations (trace w).
Proof.
  intros Hk. unfold final_completed. rewrite run_batches_unfolds. cbv zeta.
  match goal with |- context [submit_all env batches ?w1] =>
    destruct (submit_all_steady env batches w1) as [_ [evs [Htr Hevs]]];
    destruct (submit_all env batches w1) as [fs w2]
  end.
  simpl in Htr. simpl snd.
  rewrite (collect_default_silent env _ (length batches) 0 w2) by lia.
  simpl. split; [reflexivity|].
  rewrite Htr. now apply progress_observations_app.
Qed.

(** C8 at a failing input.  With the default [batch_size = 128] the running
    total passes 5000 at the fortieth batch (4992 to 5120); the run of
    forty batches completes and prints no rate, as no total is a multiple
    of 5000. *)
Theorem crossing_without_progress :
  assemble many_chunks 128 = Ok forty_batches /\
  length forty_batches = 40%nat /\
  crossings 5000 128 40 = 1%nat /\
  final_completed ticking_env 128 forty_batches initial_world = Ok 5120 /\
  progress_observations
    (trace (snd (run_batches ticking_env 128 forty_batches initial_world)))
  = [].
Proof.
  assert (Hlen : length forty_batches = 40%nat) by reflexivity.
  destruct (run_batches_default_silent ticking_env forty_batches initial_world)
    as [Hc Hp]; [rewrite Hlen; lia|].
  rewrite Hlen in Hc.
  split; [vm_compute; reflexivity|].
  split; [assumption|]. split; [reflexivity|]. split; assumption.
Qed.

(* ================================================================== *)
(** * More on the chunker *)

Section ChunkerEdges.

Variable max_chunk_size : Z.

Lemma shaped_non_blank c : shaped c -> non_blank c <> [].
Proof.
  intros [Hne [Hh _]]. destruct c as [|a c]; [congruence|].
  simpl in *. now rewrite Hh.
Qed.

Lemma flush_add_sentence_apart st s :
  max_chunk_size <= 0 -> shaped s ->
  flush (add_sentence max_chunk_size st s) = flush st ++ [s].
Proof.
  intros Hmax [Hne Ht]. destruct st as [chunks cur]. unfold add_sentence.
  destruct (Z.leb_spec (len cur + len s) max_chunk_size) as [Hfit|_].
  - exfalso. destruct s as [|a s]; [congruence|].
    unfold len in Hfit. simpl length in Hfit. lia.
  - unfold flush at 1. destruct s as [|a s]; [congruence|]. cbn [truthy].
    now rewrite (strip_trimmed _ Ht).
Qed.

Lemma flush_add_sentences_apart ss : forall st,
  max_chunk_size <= 0 -> Forall shaped ss ->
  flush (fold_left (add_sentence max_chunk_size) ss st) = flush st ++ ss.
Proof.
  induction ss as [|s ss IH]; intros st Hmax Hss; cbn [fold_left].
  - now rewrite app_nil_r.
  - inversion Hss; subst.
    rewrite IH, flush_add_sentence_apart by assumption.
    now rewrite <- app_assoc.
Qed.

Lemma flush_add_paragraph_apart st p :
  max_chunk_size <= 0 ->
  flush (add_paragraph max_chunk_size st p) = flush st ++ units_of_paragraph p.
Proof.
  intros Hmax. unfold add_paragraph, units_of_paragraph.
  pose proof (trimmed_strip p) as Ht.
  destruct (strip p) as [|c q] eqn:E; cbn [truthy negb].
  - now rewrite app_nil_r.
  - destruct (Z.gtb_spec (len (c :: q)) max_chunk_size) as [_|Hsmall].
    + apply flush_add_sentences_apart; [assumption|].
      apply re_split_sentences_trimmed; [discriminate | assumption].
    + unfold len in Hsmall. simpl length in Hsmall. lia.
Qed.

Lemma flush_add_paragraphs_apart ps : forall st,
  max_chunk_size <= 0 ->
  flush (fold_left (add_paragraph max_chunk_size) ps st)
  = flush st ++ flat_map units_of_paragraph ps.
Proof.
  induction ps as [|p ps IH]; intros st Hmax; cbn [fold_left flat_map].
  - now rewrite app_nil_r.
  - now rewrite IH, flush_add_paragraph_apart, <- app_assoc by assumption.
Qed.

End ChunkerEdges.

(** A text without a non-whitespace character, the empty text among them,
    gives no chunk, and only such a text does. *)
Theorem no_chunk_iff_blank (text : str) (max_chunk_size : Z) :
  split_text_into_chunks text max_chunk_size = [] <-> non_blank text = [].
Proof.
  assert (Hc : non_blank (concat (split_text_into_chunks text max_chunk_size))
               = non_blank text).
  { unfold split_text_into_chunks.
    rewrite flush_content, add_paragraphs_content. unfold state_content.
    simpl. apply non_blank_split; [discriminate | repeat constructor]. }
  pose proof (chunks_shaped max_chunk_size text) as Hs.
  destruct (split_text_into_chunks text max_chunk_size) as [|c cs].
  - simpl in Hc. now split.
  - split; [discriminate|]. intros Hb. exfalso.
    inversion Hs; subst. rewrite Hb in Hc. simpl in Hc.
    rewrite non_blank_app in Hc. apply app_eq_nil in Hc as [Hc _].
    now apply (shaped_non_blank c).
Qed.

(** With a limit of zero or less nothing is ever joined: the chunks are the
    sentences of the text, one by one. *)
Theorem nonpositive_limit_gives_units (text : str) (max_chunk_size : Z) :
  max_chunk_size <= 0 ->
  split_text_into_chunks text max_chunk_size = units text.
Proof.
  intros Hmax. unfold split_text_into_chunks, units.
  now rewrite flush_add_paragraphs_apart.
Qed.

Lemma nonpositive_limit_gives_units_witness :
  0 <= 0 /\
  split_text_into_chunks two_short_sentences 0 = units two_short_sentences.
Proof.
  split; [lia | apply (nonpositive_limit_gives_units two_short_sentences 0); lia].
Defined.

Section WholeText.

Lemma length_lstrip_le s : (length (lstrip s) <= length s)%nat.
Proof.
  induction s as [|c s IH]; simpl; [lia|].
  destruct (isspace c); simpl; lia.
Qed.

Lemma len_strip_le s : len (strip s) <= len s.
Proof.
  unfold len, strip, rstrip. rewrite length_rev.
  pose proof (length_lstrip_le (rev (lstrip s))) as H1.
  pose proof (length_lstrip_le s) as H2.
  rewrite length_rev in H1. lia.
Qed.

Lemma starts_with_length p s :
  starts_with p s = true -> (length p <= length s)%nat.
Proof.
  revert s; induction p as [|a p IH]; intros [|b s] H; simpl in *;
    try lia; try discriminate.
  apply andb_true_iff in H as [_ H]. apply IH in H. lia.
Qed.

(** The pieces of [s.split(sep)], each with one separator, are as long as
    [s] and one separator. *)
Lemma split_go_length sep : sep <> [] ->
  forall s skip acc, (skip <= length s)%nat ->
    fold_right (fun p n => (length sep + length p + n)%nat) 0%nat
               (split_go sep skip acc s)
    = (length acc + length s - skip + length sep)%nat.
Proof.
  intros Hne. induction s as [|c s IH]; intros skip acc Hskip.
  - simpl in *. rewrite length_rev. lia.
  - cbn [split_go]. destruct skip as [|k].
    + destruct (starts_with sep (c :: s)) eqn:E.
      * apply starts_with_length in E. simpl length in E.
        cbn [fold_right]. rewrite IH by lia.
        rewrite length_rev. simpl length.
        destruct sep; [congruence|]. simpl length in *. lia.
      * rewrite IH by lia. simpl length. lia.
    + simpl length in *. rewrite IH by lia. lia.
Qed.

Lemma rest_len_split text : rest_len (split blank_line text) = len text + 2.
Proof.
  pose proof (split_go_length blank_line ltac:(discriminate) text 0 []
                ltac:(lia)) as H.
  unfold split. simpl length in H.
  assert (G : forall ps,
             rest_len ps
             = Z.of_nat (fold_right (fun p k => (2 + length p + k)%nat) 0%nat ps)).
  { induction ps as [|p ps IH]; [reflexivity|].
    cbn [rest_len fold_right]. fold (rest_len ps). rewrite IH.
    unfold len. lia. }
  rewrite G, H. unfold len. lia.
Qed.

Variable max_chunk_size : Z.

Lemma add_paragraph_fits_whole st p ps :
  fits_whole max_chunk_size st (p :: ps) ->
  fits_whole max_chunk_size (add_paragraph max_chunk_size st p) ps.
Proof.
  destruct st as [chunks cur]. intros [Hc [He Hn]]. cbn [fst snd] in *.
  subst chunks. cbn [rest_len fold_right] in He, Hn. fold (rest_len ps) in *.
  pose proof (len_strip_le p) as Hle.
  assert (Hrest : 0 <= rest_len ps).
  { clear. induction ps as [|q ps IH]; [reflexivity|].
    cbn [rest_len fold_right]. fold (rest_len ps). unfold len. lia. }
  unfold add_paragraph.
  destruct (strip p) as [|c q] eqn:E; cbn [truthy negb].
  - split; [reflexivity|]. cbn [snd]. unfold len in *. split; intros H.
    + specialize (He H). lia.
    + specialize (Hn H). lia.
  - assert (Hcur : len cur + len (c :: q) <= max_chunk_size /\
                   len (c :: q) <= max_chunk_size).
    { destruct cur as [|d cur].
      - specialize (He eq_refl). change (len []) with 0. lia.
      - specialize (Hn ltac:(discriminate)).
        assert (0 <= len (d :: cur)) by (unfold len; lia). lia. }
    destruct Hcur as [Hfit Hsmall].
    destruct (Z.gtb_spec (len (c :: q)) max_chunk_size); [lia|].
    destruct (Z.leb_spec (len cur + len (c :: q)) max_chunk_size); [|lia].
    split; [reflexivity|]. cbn [snd].
    destruct cur as [|d cur]; cbn [truthy].
    + split; [discriminate|]. intros _. specialize (He eq_refl). lia.
    + split; [discriminate|]. intros _. specialize (Hn ltac:(discriminate)).
      rewrite !len_app. change (len blank_line) with 2. lia.
Qed.

Lemma add_paragraphs_fits_whole ps : forall st,
  fits_whole max_chunk_size st ps ->
  fst (fold_left (add_paragraph max_chunk_size) ps st) = [].
Proof.
  induction ps as [|p ps IH]; intros st H; cbn [fold_left].
  - now destruct H.
  - apply IH. now apply add_paragraph_fits_whole.
Qed.

End WholeText.

(** A text that is not longer than the limit is never cut: it comes back as
    one chunk, or as none when it is blank. *)
Theorem text_within_limit_is_one_chunk (text : str) (max_chunk_size : Z) :
  len text <= max_chunk_size ->
  (length (split_text_into_chunks text max_chunk_size) <= 1)%nat.
Proof.
  intros Hlen. unfold split_text_into_chunks.
  pose proof (add_paragraphs_fits_whole max_chunk_size
                (split blank_line text) ([], [])) as H.
  destruct (fold_left (add_paragraph max_chunk_size) (split blank_line text)
              ([], [])) as [chunks cur].
  cbn [fst] in H. rewrite H.
  - unfold flush. destruct (truthy cur); simpl; lia.
  - split; [reflexivity|]. cbn [snd]. split; [|congruence].
    intros _. rewrite rest_len_split. lia.
Qed.

Lemma text_within_limit_is_one_chunk_witness :
  len scenario_text <= 60 /\
  (length (split_text_into_chunks scenario_text 60) <= 1)%nat.
Proof.
  split; [vm_compute; discriminate
         | apply (text_within_limit_is_one_chunk scenario_text 60);
           vm_compute; discriminate].
Defined.

Section Glue.

Variable max_chunk_size : Z.

Lemma close_group groups g chunks cur :
  Forall2 glued groups chunks -> glued g cur -> trimmed cur ->
  Forall2 glued (groups ++ [g]) (chunks ++ [strip cur]).
Proof.
  intros Hf Hg Ht. rewrite (strip_trimmed _ Ht).
  apply Forall2_app; [assumption|]. now repeat constructor.
Qed.

Lemma add_sentence_glued st done s :
  trimmed (snd st) -> s <> [] -> state_glued st done ->
  state_glued (add_sentence max_chunk_size st s) (done ++ [s]).
Proof.
  destruct st as [chunks cur]. cbn [snd]. intros Ht Hs.
  intros [groups [g [Hd [Hf [He Hn]]]]]. cbn [fst snd] in *. subst done.
  unfold add_sentence, state_glued.
  destruct (len cur + len s <=? max_chunk_size);
    destruct cur as [|c cur]; cbn [truthy fst snd].
  - rewrite (He eq_refl), app_nil_r. exists groups, [s].
    split; [reflexivity|]. split; [assumption|].
    split; [intros; congruence | intros _; constructor].
  - exists groups, (g ++ [s]).
    split; [now rewrite app_assoc|]. split; [assumption|].
    split; [discriminate|]. intros _. apply glued_space. now apply Hn.
  - rewrite (He eq_refl), app_nil_r. exists groups, [s].
    split; [reflexivity|]. split; [assumption|].
    split; [intros; congruence | intros _; constructor].
  - exists (groups ++ [g]), [s].
    split; [rewrite concat_app; cbn [concat]; now rewrite app_nil_r|].
    split; [apply close_group; auto; now apply Hn|].
    split; [intros; congruence | intros _; constructor].
Qed.

Lemma add_sentences_glued ss : forall st done,
  state_shaped st -> Forall shaped ss -> state_glued st done ->
  state_glued (fold_left (add_sentence max_chunk_size) ss st) (done ++ ss).
Proof.
  induction ss as [|s ss IH]; intros st done Hsh Hss Hg; cbn [fold_left].
  - now rewrite app_nil_r.
  - inversion Hss as [|? ? [Hne Hs] Hss']; subst.
    change (s :: ss) with ([s] ++ ss). rewrite app_assoc. apply IH; auto.
    + apply add_sentence_shaped; [assumption | now split].
    + apply add_sentence_glued; auto. now destruct Hsh.
Qed.

Lemma add_paragraph_glued st done p :
  state_shaped st -> state_glued st done ->
  state_glued (add_paragraph max_chunk_size st p)
              (done ++ pieces_of_paragraph max_chunk_size p).
Proof.
  intros Hsh Hg. unfold add_paragraph, pieces_of_paragraph.
  pose proof (trimmed_strip p) as Ht.
  destruct (strip p) as [|c q] eqn:E; cbn [truthy negb].
  - now rewrite app_nil_r.
  - destruct (Z.gtb_spec (len (c :: q)) max_chunk_size) as [Hbig|Hsmall].
    + apply add_sentences_glued; auto.
      apply re_split_sentences_trimmed; [discriminate | assumption].
    + destruct st as [chunks cur]. destruct Hsh as [_ Htc].
      destruct Hg as [groups [g [Hd [Hf [He Hn]]]]]. cbn [fst snd] in *.
      subst done. unfold state_glued.
      destruct (Z.leb_spec (len cur + len (c :: q)) max_chunk_size)
        as [Hfit|Hfit]; [destruct cur as [|d cur]|]; cbn [truthy fst snd].
      * rewrite (He eq_refl), app_nil_r. exists groups, [c :: q].
        split; [reflexivity|]. split; [assumption|].
        split; [discriminate | intros _; constructor].
      * exists groups, (g ++ [c :: q]).
        split; [now rewrite app_assoc|]. split; [assumption|].
        split; [discriminate|]. intros _. apply glued_blank. now apply Hn.
      * assert (Hcur : cur <> []).
        { intros ->. change (len []) with 0 in Hfit. lia. }
        exists (groups ++ [g]), [c :: q].
        split; [rewrite concat_app; cbn [concat]; now rewrite app_nil_r|].
        split; [apply close_group; auto|].
        split; [discriminate | intros _; constructor].
Qed.

Lemma add_paragraphs_glued ps : forall st done,
  state_shaped st -> state_glued st done ->
  state_glued (fold_left (add_paragraph max_chunk_size) ps st)
              (done ++ flat_map (pieces_of_paragraph max_chunk_size) ps).
Proof.
  induction ps as [|p ps IH]; intros st done Hsh Hg; cbn [fold_left flat_map].
  - now rewrite app_nil_r.
  - rewrite app_assoc. apply IH.
    + now apply add_paragraph_shaped.
    + now apply add_paragraph_glued.
Qed.

End Glue.

(** No piece is ever cut.  The chunks are the pieces of the text (its
    paragraphs, and the sentences of a paragraph longer than the limit),
    taken in order and in consecutive groups, the pieces of a group joined
    by a single space or by a blank line: no piece is dropped, repeated or
    moved. *)
Theorem chunks_are_glued_pieces (text : str) (max_chunk_size : Z) :
  exists groups,
    concat groups = pieces text max_chunk_size /\
    Forall2 glued groups (split_text_into_chunks text max_chunk_size).
Proof.
  unfold split_text_into_chunks, pieces.
  assert (H0 : state_shaped ([], [])) by (split; [constructor | apply trimmed_nil]).
  assert (G0 : state_glued ([], []) []).
  { exists [], []. split; [reflexivity|]. split; [constructor|].
    split; [reflexivity | intros H; now elim H]. }
  pose proof (add_paragraphs_glued max_chunk_size (split blank_line text)
                ([], []) [] H0 G0) as Hg.
  pose proof (add_paragraphs_shaped max_chunk_size (split blank_line text)
                ([], []) H0) as Hsh.
  destruct (fold_left (add_paragraph max_chunk_size) (split blank_line text)
              ([], [])) as [chunks cur].
  destruct Hsh as [_ Ht]. destruct Hg as [groups [g [Hd [Hf [He Hn]]]]].
  cbn [fst snd app] in *. unfold flush.
  destruct cur as [|c cur]; cbn [truthy].
  - exists groups. rewrite (He eq_refl), app_nil_r in Hd. now split.
  - exists (groups ++ [g]). rewrite concat_app. cbn [concat].
    rewrite app_nil_r. split; [assumption|].
    apply close_group; auto. apply Hn. discriminate.
Qed.

(* ================================================================== *)
(** * More on the sentence splitter *)

Lemma re_split_go_nonempty s : forall in_match prev acc,
  re_split_go in_match prev acc s <> [].
Proof.
  induction s as [|c s IH]; intros in_match prev acc; simpl; [discriminate|].
  destruct (isspace c); [destruct in_match; [|destruct (after_terminator prev)]|];
    try apply IH; discriminate.
Qed.

Lemma re_split_go_cuts s : forall in_match prev acc,
  (in_match = false -> prev = hd_error acc) ->
  Forall ends_with_terminator
         (removelast (re_split_go in_match prev acc s)).
Proof.
  induction s as [|c s IH]; intros in_match prev acc Hc; [constructor|].
  cbn [re_split_go].
  destruct (isspace c); [destruct in_match|].
  - apply IH. discriminate.
  - destruct (after_terminator prev) eqn:T.
    + specialize (Hc eq_refl).
      destruct acc as [|p acc]; [subst prev; discriminate|].
      simpl in Hc. subst prev. simpl in T.
      pose proof (re_split_go_nonempty s true (Some c) []) as Hne.
      cbn [removelast].
      destruct (re_split_go true (Some c) [] s) as [|x rest] eqn:E;
        [congruence|].
      constructor.
      * exists (rev acc), p. now split.
      * rewrite <- E. apply IH. discriminate.
    + apply IH. reflexivity.
  - apply IH. reflexivity.
Qed.

(** Where a long paragraph is cut, it is cut after [.], [!] or [?]: every
    sentence that [re.split] returns, the last apart, ends with one of
    them. *)
Theorem sentences_end_with_terminator (paragraph : str) :
  Forall ends_with_terminator (removelast (re_split_sentences paragraph)).
Proof. apply re_split_go_cuts. reflexivity. Qed.

(* ================================================================== *)
(** * More on the pipeline *)

Section Appends.

Context {P : event -> Prop}.

Lemma steady_appends {A} (m : M A) : steady P m -> appends P m.
Proof. intros H w. now destruct (H w). Qed.

Lemma appends_bind {A B} (m : M A) (k : A -> M B) :
  appends P m -> (forall a, appends P (k a)) -> appends P (bind m k).
Proof.
  intros Hm Hk w. unfold bind.
  destruct (Hm w) as [evs [Htr Hevs]].
  destruct (m w) as [[a|e] w1]; simpl in *.
  - destruct (Hk a w1) as [evs' [Htr' Hevs']].
    exists (evs ++ evs').
    split; [now rewrite Htr', Htr, app_assoc | now apply Forall_app].
  - now exists evs.
Qed.

Lemma appends_try_except {A} (m : M A) handler :
  appends P m -> (forall e, appends P (handler e)) ->
  appends P (try_except m handler).
Proof.
  intros Hm Hh w. unfold try_except.
  destruct (Hm w) as [evs [Htr Hevs]].
  destruct (m w) as [[a|[e|name]] w1]; simpl in *.
  - now exists evs.
  - destruct (Hh e w1) as [evs' [Htr' Hevs']].
    exists (evs ++ evs').
    split; [now rewrite Htr', Htr, app_assoc | now apply Forall_app].
  - now exists evs.
Qed.

Lemma appends_future_result f : appends P (future_result f).
Proof. intros w. exists []. simpl. now rewrite app_nil_r. Qed.

Lemma appends_time_time env : appends P (time_time env).
Proof. intros w. exists []. simpl. now rewrite app_nil_r. Qed.

End Appends.

Ltac appends_step :=
  first [ apply appends_bind; [|intros ?]
        | apply appends_try_except; [|intros ?]
        | apply appends_time_time
        | apply steady_appends; steady_step ].

Lemma appends_weaken {A} (P Q : event -> Prop) (m : M A) :
  (forall ev, P ev -> Q ev) -> appends P m -> appends Q m.
Proof.
  intros HPQ Hm w. destruct (Hm w) as [evs [Htr Hevs]].
  exists evs. split; [assumption|]. now apply (Forall_impl Q HPQ).
Qed.

(** The report of the loop and the summary only print. *)
Lemma collect_appends env batch_size start_time futures : forall completed,
  appends extraction_event
          (collect env batch_size start_time futures completed).
Proof.
  induction futures as [|f rest IH]; intros completed; cbn [collect].
  - apply steady_appends, steady_ret.
  - appends_step; [apply appends_future_result|].
    appends_step; [|apply IH].
    destruct ((completed + batch_size) mod 5000 =? 0);
      repeat appends_step.
Qed.

Lemma final_report_appends env all_chunks start_time :
  appends extraction_event (final_report env all_chunks start_time).
Proof. unfold final_report. repeat appends_step. Qed.

(** Views of the trace pass over the events that are not theirs. *)
Lemma submitted_app tr tr' : submitted (tr ++ tr') = submitted tr ++ submitted tr'.
Proof.
  induction tr as [|ev tr IH]; [reflexivity|].
  destruct ev; simpl; now rewrite ?IH.
Qed.

Lemma added_objects_app tr tr' :
  added_objects (tr ++ tr') = added_objects tr ++ added_objects tr'.
Proof.
  induction tr as [|ev tr IH]; [reflexivity|].
  destruct ev; simpl; now rewrite ?IH.
Qed.

Lemma submitted_quiet evs :
  Forall (fun ev => worker_event ev \/ extraction_event ev) evs ->
  submitted evs = [].
Proof.
  induction 1 as [|ev evs Hev _ IH]; [reflexivity|].
  destruct ev; simpl; try exact IH.
  destruct Hev as [[]|Hev]; discriminate Hev.
Qed.

Lemma added_objects_quiet evs :
  Forall extraction_event evs -> added_objects evs = [].
Proof.
  induction 1 as [|ev evs Hev _ IH]; [reflexivity|].
  destruct ev; simpl; try exact IH. discriminate Hev.
Qed.

(** ** Extraction *)

Lemma blind_ret {A} (a : A) : state_blind (ret a).
Proof. now intros w w'. Qed.

Lemma blind_lift {A} (r : answer A) : state_blind (lift r).
Proof. now intros w w'. Qed.

Lemma blind_emit ev : state_blind (emit ev).
Proof. now intros w w'. Qed.

Lemma blind_bind {A B} (m : M A) (k : A -> M B) :
  state_blind m -> (forall a, state_blind (k a)) -> state_blind (bind m k).
Proof.
  intros Hm Hk w w'. unfold bind. specialize (Hm w w').
  destruct (m w) as [[a|e] w1], (m w') as [[a'|e'] w1']; simpl in Hm;
    try discriminate; inversion Hm; subst; [apply Hk | reflexivity].
Qed.

Lemma blind_try_except {A} (m : M A) handler :
  state_blind m -> (forall e, state_blind (handler e)) ->
  state_blind (try_except m handler).
Proof.
  intros Hm Hh w w'. unfold try_except. specialize (Hm w w').
  destruct (m w) as [[a|[e|name]] w1], (m w') as [[a'|[e'|name']] w1'];
    simpl in Hm; try discriminate; inversion Hm; subst;
    [reflexivity | apply Hh | reflexivity].
Qed.

Ltac blind_step :=
  first [ apply blind_bind; [|intros ?]
        | apply blind_try_except; [|intros ?]
        | apply blind_ret | apply blind_lift | apply blind_emit ].

Lemma process_file_blind env f : state_blind (process_file env f).
Proof.
  unfold process_file, process_pdf, print.
  blind_step; [blind_step|]. blind_step; [|repeat blind_step].
  repeat match goal with
         | |- context [if ?c then _ else _] => destruct c
         end; repeat blind_step.
Qed.

Lemma process_file_value env f w :
  fst (process_file env f w) = Ok (extracted env f).
Proof.
  unfold extracted. rewrite (process_file_blind env f initial_world w).
  destruct (process_file_returns env f w) as [r ->]. reflexivity.
Qed.

Lemma process_files_gathers env fs : forall acc w,
  fst (process_files env fs acc w) = Ok (acc ++ flat_map (chunks_of env) fs).
Proof.
  induction fs as [|f fs IH]; intros acc w; cbn [process_files flat_map].
  - now rewrite app_nil_r.
  - unfold bind. pose proof (process_file_value env f w) as Hv.
    destruct (process_file env f w) as [r w1]. simpl in Hv. subst r.
    unfold chunks_of at 1.
    destruct (extracted env f) as [[|c cs]|]; rewrite IH;
      rewrite <- ?app_assoc; reflexivity.
Qed.

(** The walk gathers the chunks file by file, in the order of the walk.  A
    file that cannot be read, or whose type is not supported, adds nothing
    and does not stop the walk; the extraction never raises, never reaches
    the sink and never reads the clock. *)
Theorem extraction_keeps_walk_order env filenames all_chunks w :
  fst (process_files env filenames all_chunks w)
  = Ok (all_chunks ++ flat_map (chunks_of env) filenames) /\
  ticks (snd (process_files env filenames all_chunks w)) = ticks w /\
  exists evs,
    trace (snd (process_files env filenames all_chunks w)) = trace w ++ evs /\
    Forall (fun ev => is_sink_event ev = false) evs.
Proof.
  split; [apply process_files_gathers | apply process_files_steady].
Qed.

(** ** The worker threads *)

Lemma add_objects_worker sink chunks :
  steady worker_event (add_objects sink chunks).
Proof.
  induction chunks as [|c rest IH]; simpl; [apply steady_ret|].
  apply steady_bind; [now apply steady_call | intros; apply IH].
Qed.

Lemma process_batch_worker sink chunks :
  steady worker_event (process_batch sink chunks).
Proof.
  unfold process_batch, sink_submission, with_batch.
  apply steady_try_except; [|intros e; now apply steady_print].
  apply steady_bind; [now apply steady_call|]. intros _ w.
  destruct (add_objects_worker sink chunks w) as [Ht [evs [Htr Hevs]]].
  assert (Hexit : forall (k : M unit),
             steady worker_event k ->
             steady worker_event (call BatchExit (leave sink) ;;; k)).
  { intros k Hk. apply steady_bind; [now apply steady_call | intros; apply Hk]. }
  destruct (add_objects sink chunks w) as [[a|e] w1]; simpl in Ht, Htr.
  - destruct (Hexit (ret a) (steady_ret a) w1) as [Ht' [evs' [Htr' Hevs']]].
    split; [congruence|]. exists (evs ++ evs').
    split; [now rewrite Htr', Htr, app_assoc | now apply Forall_app].
  - destruct (Hexit (raise e) (steady_raise e) w1) as [Ht' [evs' [Htr' Hevs']]].
    split; [congruence|]. exists (evs ++ evs').
    split; [now rewrite Htr', Htr, app_assoc | now apply Forall_app].
Qed.

Lemma submit_trace env batch w :
  exists evs,
    trace (snd (submit env batch w)) = trace w ++ Submit batch :: evs /\
    Forall worker_event evs.
Proof.
  unfold submit, submit_to, bind, emit. cbn [fst snd].
  match goal with |- context [process_batch ?sink batch ?w1] =>
    destruct (process_batch_worker sink batch w1) as [_ [evs [Htr Hevs]]];
    destruct (process_batch sink batch w1) as [r w2]
  end.
  cbn [snd trace] in *. exists evs. rewrite Htr, <- app_assoc. now split.
Qed.

Lemma worker_events_submit_nothing evs :
  Forall worker_event evs -> submitted evs = [].
Proof.
  intros H. apply submitted_quiet.
  eapply Forall_impl; [|exact H]. intros ev Hev. now left.
Qed.

Lemma submit_all_submitted env batches : forall w,
  submitted (trace (snd (submit_all env batches w)))
  = submitted (trace w) ++ batches.
Proof.
  induction batches as [|b rest IH]; intros w; cbn [submit_all].
  - simpl. now rewrite app_nil_r.
  - unfold bind at 1. pose proof (submit_result env b w) as Hr.
    destruct (submit_trace env b w) as [evs [Htr Hevs]].
    destruct (submit env b w) as [r w1]. simpl in Hr, Htr. subst r.
    unfold bind. specialize (IH w1).
    pose proof (submit_all_result env rest w1) as Hrs.
    destruct (submit_all env rest w1) as [fs w2]. simpl in Hrs, IH. subst fs.
    cbn [snd ret]. rewrite IH, Htr.
    change (Submit b :: evs) with ([Submit b] ++ evs).
    rewrite !submitted_app, (worker_events_submit_nothing evs Hevs).
    simpl. now rewrite <- app_assoc.
Qed.

(** A sink that accepts everything is offered every object of a batch. *)
Lemma add_objects_accepted sink chunks : accepts sink -> forall w,
  add_objects sink chunks w
  = (Ok tt, {| ticks := ticks w;
               trace := trace w
                        ++ map AddObject (map properties_of chunks) |}).
Proof.
  intros [_ [Hadd _]].
  induction chunks as [|c rest IH]; intros w; cbn [add_objects map].
  - unfold ret. rewrite app_nil_r. now destruct w.
  - unfold bind, call. rewrite Hadd, IH. cbn [ticks trace].
    now rewrite <- app_assoc.
Qed.

(** With a sink that never raises, one call of [process_batch] enters the
    batch context once, passes to [add_object] the properties of the chunks
    of its batch, each once and in the order of the batch, leaves the
    context once, prints nothing and returns [None]. *)
Theorem batch_is_offered_in_order sink batch w :
  accepts sink ->
  process_batch sink batch w
  = (Ok tt,
     {| ticks := ticks w;
        trace := trace w ++ [BatchEnter]
                 ++ map AddObject (map properties_of batch) ++ [BatchExit] |}).
Proof.
  intros Hacc. pose proof Hacc as [Henter [_ Hexit]].
  unfold process_batch, try_except, sink_submission, with_batch, bind, call.
  cbn [fst snd ticks trace]. rewrite Henter.
  rewrite (add_objects_accepted sink batch Hacc).
  cbn [ticks trace]. rewrite Hexit. cbn [ret].
  now rewrite <- !app_assoc.
Qed.

Lemma batch_is_offered_in_order_witness :
  accepts (sink_of accepting_env) /\
  process_batch (sink_of accepting_env) four_chunks initial_world
  = (Ok tt,
     {| ticks := ticks initial_world;
        trace := trace initial_world ++ [BatchEnter]
                 ++ map AddObject (map properties_of four_chunks)
                 ++ [BatchExit] |}).
Proof.
  split; [repeat split|].
  apply (batch_is_offered_in_order (sink_of accepting_env) four_chunks
           initial_world).
  repeat split.
Defined.

(** ** The whole run *)

Lemma assemble_total {A} (l : list A) batch_size :
  batch_size <> 0 -> exists batches, assemble l batch_size = Ok batches.
Proof.
  intros Hb. unfold assemble, py_range.
  destruct (Z.eqb_spec batch_size 0); [contradiction|]. eexists. reflexivity.
Qed.

Lemma assemble_concat {A} (l : list A) batch_size :
  0 < batch_size ->
  exists batches, assemble l batch_size = Ok batches /\ concat batches = l.
Proof.
  intros Hb. rewrite (assemble_groups _ _ Hb). eexists.
  split; [reflexivity|]. rewrite concat_groups. apply firstn_all2.
  set (n := Z.of_nat (length l)).
  pose proof (Z.div_mod (n + batch_size - 1) batch_size ltac:(lia)) as E.
  pose proof (Z.mod_pos_bound (n + batch_size - 1) batch_size Hb) as Hr.
  set (q := (n + batch_size - 1) / batch_size) in *.
  assert (0 <= q) by (apply Z.div_pos; lia).
  assert (Hq : Z.of_nat (Z.to_nat q * Z.to_nat batch_size) = q * batch_size)
    by lia.
  assert (n <= q * batch_size) by nia.
  subst n. lia.
Qed.

Lemma assemble_negative {A} (l : list A) batch_size :
  batch_size < 0 -> assemble l batch_size = Ok [].
Proof.
  intros Hb. unfold assemble, py_range, range_length.
  destruct (Z.eqb_spec batch_size 0); [lia|].
  destruct (Z.ltb_spec 0 batch_size); [lia|].
  destruct (Z.leb_spec 0 (Z.of_nat (length l))); [reflexivity | lia].
Qed.

(** The trace of a run: the extraction, the pool, and then only printed
    lines. *)
Lemma run_trace_unfolds env file_path batch_size batches :
  assemble (extracted_chunks env file_path) batch_size = Ok batches ->
  let w1 := snd (process_files env (walk env file_path) [] initial_world) in
  let w2 := snd (submit_all env batches
                   {| ticks := S (ticks w1); trace := trace w1 |}) in
  exists evs,
    run_trace env file_path batch_size = trace w2 ++ evs /\
    Forall extraction_event evs.
Proof.
  intros Hasm w1 w2. subst w2 w1.
  unfold run_trace, import_with_batching, try_except. unfold bind at 1.
  pose proof (process_files_gathers env (walk env file_path) [] initial_world)
    as Hcs.
  destruct (process_files env (walk env file_path) [] initial_world)
    as [r w1]. cbn [fst snd] in *. subst r. cbn [app].
  fold (extracted_chunks env file_path). rewrite Hasm.
  unfold bind at 1, lift at 1. cbn [inject]. unfold bind at 1.
  rewrite run_batches_unfolds. cbv zeta.
  match goal with |- context [collect env batch_size ?st ?fs 0 ?w2] =>
    destruct (collect_appends env batch_size st fs 0 w2) as [evs1 [Htr1 H1]];
    destruct (collect env batch_size st fs 0 w2) as [[c|[e|name]] w3]
  end; cbn [snd fst] in *.
  - match goal with |- context [final_report env ?cs ?st w3] =>
      destruct (final_report_appends env cs st w3) as [evs2 [Htr2 H2]];
      destruct (final_report env cs st w3) as [[[]|[e|name]] w4]
    end; cbn [snd] in *.
    + exists (evs1 ++ evs2). rewrite Htr2, Htr1, app_assoc.
      split; [reflexivity | now apply Forall_app].
    + unfold bind, print, emit, raise. cbn [fst snd trace].
      exists (evs1 ++ evs2 ++ [Print (ErrorDuringImport e)]).
      rewrite Htr2, Htr1, <- !app_assoc. split; [reflexivity|].
      repeat (apply Forall_app; split; auto). now repeat constructor.
    + exists (evs1 ++ evs2). rewrite Htr2, Htr1, app_assoc.
      split; [reflexivity | now apply Forall_app].
  - unfold bind, print, emit, raise. cbn [fst snd trace].
    exists (evs1 ++ [Print (ErrorDuringImport e)]).
    rewrite Htr1, <- app_assoc. split; [reflexivity|].
    apply Forall_app; split; auto. now repeat constructor.
  - now exists evs1.
Qed.

Lemma extraction_trace_quiet env file_path :
  Forall extraction_event
    (trace (snd (process_files env (walk env file_path) [] initial_world))).
Proof.
  destruct (process_files_steady env (walk env file_path) [] initial_world)
    as [_ [evs [Htr Hevs]]].
  now rewrite Htr.
Qed.

Lemma quiet_submit_nothing evs :
  Forall extraction_event evs -> submitted evs = [].
Proof.
  intros H. apply submitted_quiet.
  eapply Forall_impl; [|exact H]. intros ev Hev. now right.
Qed.

(** Every batch is handed to the pool, in order and once, whatever the sink
    answers to the earlier ones and whatever the clock reads: a batch that
    fails does not stop the others. *)
Theorem every_batch_is_submitted env file_path batch_size :
  batch_size <> 0 ->
  exists batches,
    assemble (extracted_chunks env file_path) batch_size = Ok batches /\
    submitted (run_trace env file_path batch_size) = batches.
Proof.
  intros Hb.
  destruct (assemble_total (extracted_chunks env file_path) batch_size Hb)
    as [batches Hasm].
  exists batches. split; [assumption|].
  destruct (run_trace_unfolds env file_path batch_size batches Hasm)
    as [evs [-> Hevs]].
  rewrite submitted_app, submit_all_submitted. cbn [trace].
  rewrite (quiet_submit_nothing _ (extraction_trace_quiet env file_path)).
  rewrite (quiet_submit_nothing _ Hevs). simpl. now rewrite app_nil_r.
Qed.

Lemma every_batch_is_submitted_witness :
  2 <> 0 /\
  exists batches,
    assemble (extracted_chunks three_files_env "./directory") 2
    = Ok batches /\
    submitted (run_trace three_files_env "./directory" 2) = batches.
Proof.
  split; [lia
         | apply (every_batch_is_submitted three_files_env
                    "./directory" 2); lia].
Defined.

(** The run of the three files: two batches, the first refused by the
    sink and printed, the second submitted all the same. *)
Example refused_run_goes_on :
  submitted (run_trace three_files_env "./directory" 2)
  = [[text_chunk para_one; text_chunk para_one]; [text_chunk para_one]] /\
  In (Print (Exc (LibraryError "connection refused")))
     (run_trace three_files_env "./directory" 2) /\
  added_objects (run_trace three_files_env "./directory" 2)
  = [properties_of (text_chunk para_one)].
Proof.
  split; [vm_compute; reflexivity|]. split; [|vm_compute; reflexivity].
  vm_compute. tauto.
Qed.

(** With a negative [batch_size] no batch is made: nothing is submitted and
    nothing reaches the sink, whatever was extracted. *)
Theorem negative_batch_size_submits_nothing env file_path batch_size :
  batch_size < 0 ->
  Forall (fun ev => is_sink_event ev = false)
         (run_trace env file_path batch_size).
Proof.
  intros Hb.
  destruct (run_trace_unfolds env file_path batch_size []
              (assemble_negative _ batch_size Hb)) as [evs [-> Hevs]].
  cbn [submit_all ret snd trace]. apply Forall_app. split; [|assumption].
  apply extraction_trace_quiet.
Qed.

Lemma negative_batch_size_submits_nothing_witness :
  -1 < 0 /\
  Forall (fun ev => is_sink_event ev = false)
         (run_trace accepting_env "./directory" (-1)).
Proof.
  split; [lia
         | apply (negative_batch_size_submits_nothing accepting_env
                    "./directory" (-1)); lia].
Defined.






Example three_files_summary :
  length (extracted_chunks three_files_env "./directory") = 3%nat /\
  length (submitted (run_trace three_files_env "./directory" 2)) = 2%nat.
Proof. split; vm_compute; reflexivity. Qed.

(** ** The chunks of a PDF *)

Lemma page_chunks_content f pn cs : forall k,
  map content (page_chunks f pn k cs) = cs.
Proof.
  induction cs as [|c cs IH]; intros k; simpl; [reflexivity|].
  now rewrite IH.
Qed.

Lemma page_chunks_metadata f pn cs : forall k c,
  In c (page_chunks f pn k cs) ->
  exists i, metadata c = Some {| source := f; page := pn + 1; chunk := i |}
            /\ k < i.
Proof.
  induction cs as [|x cs IH]; intros k c Hin; [contradiction|].
  destruct Hin as [<-|Hin].
  - exists (k + 1). split; [reflexivity | lia].
  - destruct (IH _ _ Hin) as [i [Hm Hi]]. exists i. split; [assumption | lia].
Qed.

Lemma page_chunks_distinct f pn cs : forall k,
  NoDup (map metadata (page_chunks f pn k cs)).
Proof.
  induction cs as [|x cs IH]; intros k; simpl; constructor; [|apply IH].
  intros Hin. apply in_map_iff in Hin as [c [Hc Hin]].
  destruct (page_chunks_metadata _ _ _ _ _ Hin) as [i [Hm Hi]].
  rewrite Hm in Hc. inversion Hc. lia.
Qed.

Lemma pdf_chunks_distinct f (doc : list (Z * str)) :
  NoDup (map fst doc) ->
  NoDup (map metadata
           (flat_map (fun pg => page_chunks f (fst pg) 0
                                  (split_text_into_chunks (snd pg) 1000))
                     doc)).
Proof.
  induction doc as [|pg doc IH]; intros Hnd; simpl; [constructor|].
  inversion Hnd as [|? ? Hnotin Hnd']; subst.
  rewrite map_app. apply NoDup_app.
  - apply page_chunks_distinct.
  - now apply IH.
  - intros a Ha Hb.
    apply in_map_iff in Ha as [c [<- Hc]].
    apply in_map_iff in Hb as [c' [Heq Hc']].
    apply in_flat_map in Hc' as [pg' [Hpg' Hc']].
    destruct (page_chunks_metadata _ _ _ _ _ Hc) as [i [Hm _]].
    destruct (page_chunks_metadata _ _ _ _ _ Hc') as [i' [Hm' _]].
    rewrite Hm, Hm' in Heq. inversion Heq.
    apply Hnotin. apply in_map_iff. exists pg'. split; [lia | assumption].
Qed.

Lemma page_chunks_numbered f pn cs : forall k,
  map metadata (page_chunks f pn (Z.of_nat k) cs)
  = map (fun i => Some {| source := f; page := pn + 1; chunk := Z.of_nat i |})
        (seq (S k) (length cs)).
Proof.
  induction cs as [|c cs IH]; intros k; [reflexivity|].
  cbn [page_chunks map length seq metadata].
  replace (Z.of_nat k + 1) with (Z.of_nat (S k)) by lia.
  now rewrite IH.
Qed.

(** When the pages of a PDF are read, its chunks are the chunks of the
    pages, page after page, and each chunk carries the name of the file,
    the number of its own page counted from 1, and its own place among the
    chunks of that page, counted from 1.  The pages having distinct
    numbers, no two chunks of the file carry the same metadata. *)
Theorem pdf_chunks_are_identified env file_path doc w :
  pdf_pages env file_path = Ok doc -> NoDup (map fst doc) ->
  exists cs,
    fst (process_pdf env file_path w) = Ok (Some cs) /\
    map content cs
    = flat_map (fun pg => split_text_into_chunks (snd pg) 1000) doc /\
    map metadata cs = flat_map (page_metadata file_path) doc /\
    NoDup (map metadata cs).
Proof.
  intros Hdoc Hnd. unfold process_pdf, try_except, bind, lift. rewrite Hdoc.
  eexists. split; [reflexivity|]. split; [|split].
  - clear. induction doc as [|pg doc IH]; [reflexivity|].
    cbn [flat_map]. now rewrite map_app, page_chunks_content, IH.
  - clear. induction doc as [|pg doc IH]; [reflexivity|].
    cbn [flat_map]. rewrite map_app, IH. f_equal.
    apply (page_chunks_numbered file_path (fst pg) _ 0%nat).
  - now apply pdf_chunks_distinct.
Qed.

Lemma pdf_chunks_are_identified_witness :
  pdf_pages two_page_env "directory/paper.pdf" = Ok two_pages /\
  NoDup (map fst two_pages) /\
  exists cs,
    fst (process_pdf two_page_env "directory/paper.pdf" initial_world)
    = Ok (Some cs) /\
    map content cs
    = flat_map (fun pg => split_text_into_chunks (snd pg) 1000) two_pages /\
    map metadata cs = flat_map (page_metadata "directory/paper.pdf") two_pages /\
    NoDup (map metadata cs).
Proof.
  assert (Hnd : NoDup (map fst two_pages)).
  { simpl. constructor; [simpl; intros [H|[]]; discriminate H|].
    constructor; [simpl; tauto | constructor]. }
  split; [reflexivity|]. split; [exact Hnd|].
  apply (pdf_chunks_are_identified two_page_env "directory/paper.pdf"
           two_pages initial_world); [reflexivity | exact Hnd].
Defined.

Example two_pages_metadata :
  flat_map (page_metadata "directory/paper.pdf") two_pages
  = [Some {| source := "directory/paper.pdf"; page := 1; chunk := 1 |};
     Some {| source := "directory/paper.pdf"; page := 2; chunk := 1 |}].
Proof. vm_compute. reflexivity. Qed.

(** ** The records of the extraction *)

Lemma text_chunks_well_formed text :
  Forall well_formed (map text_chunk (split_text_into_chunks text 1000)).
Proof.
  apply Forall_map. eapply Forall_impl; [|apply (chunks_shaped 1000 text)].
  intros c [Hne Ht]. repeat split; [assumption | now apply strip_trimmed].
Qed.

Lemma page_chunks_well_formed f pn text : forall k,
  Forall well_formed (page_chunks f pn k (split_text_into_chunks text 1000)).
Proof.
  pose proof (chunks_shaped 1000 text) as Hs.
  induction Hs as [|c cs [Hne Ht] _ IH]; intros k; simpl; constructor;
    [|apply IH].
  repeat split; [assumption | now apply strip_trimmed].
Qed.

(** Whatever the file and its type, the records that the extraction returns
    for it have the type ["text"] and a content that is not empty and has
    no whitespace at its ends. *)
Theorem extracted_records_are_well_formed env file_path :
  Forall well_formed (chunks_of env file_path).
Proof.
  unfold chunks_of, extracted, process_file, process_pdf, try_except, bind,
    lift, emit, print, ret.
  cbn [fst snd].
  destruct ((extension env file_path =? ".txt")%string
            || (extension env file_path =? ".md")%string).
  - destruct (read_text env file_path) as [text|e]; cbn [fst];
      [apply text_chunks_well_formed | constructor].
  - destruct (extension env file_path =? ".pdf")%string.
    + destruct (pdf_pages env file_path) as [doc|e]; cbn [fst]; [|constructor].
      apply Forall_flat_map. apply Forall_forall. intros pg _.
      apply page_chunks_well_formed.
    + destruct (extension env file_path =? ".docx")%string; [|constructor].
      destruct (docx_paragraphs env file_path) as [paras|e]; cbn [fst];
        [apply text_chunks_well_formed | constructor].
Qed.

Lemma non_blank_join sep ps :
  Forall (fun c => isspace c = true) sep ->
  non_blank (join sep ps) = non_blank (concat ps).
Proof.
  intros Hsep. induction ps as [|p ps IH]; [reflexivity|].
  cbn [join concat]. destruct ps as [|q ps].
  - now rewrite app_nil_r.
  - rewrite !non_blank_app, IH, (non_blank_spaces _ Hsep). reflexivity.
Qed.

(** The paragraphs of a Word document are joined by blank lines and then
    chunked: the chunks hold, whitespace apart, exactly the non-whitespace
    characters of the paragraphs, in order. *)
Theorem docx_paragraphs_survive env file_path paras :
  extension env file_path = ".docx"%string ->
  docx_paragraphs env file_path = Ok paras ->
  non_blank (concat (map content (chunks_of env file_path)))
  = non_blank (concat paras).
Proof.
  intros Hext Hdoc.
  unfold chunks_of, extracted, process_file, try_except, bind, lift, emit, ret.
  cbn [fst snd]. rewrite Hext, Hdoc.
  cbn [inject fst String.eqb Ascii.eqb Bool.eqb orb].
  rewrite map_map. cbn [content text_chunk]. rewrite map_id.
  unfold split_text_into_chunks.
  rewrite flush_content, add_paragraphs_content. unfold state_content.
  cbn [fst snd concat app]. rewrite non_blank_nil, app_nil_l.
  rewrite non_blank_split by (try discriminate; repeat constructor).
  apply non_blank_join. repeat constructor.
Qed.

Lemma docx_paragraphs_survive_witness :
  extension docx_env "directory/letter.docx" = ".docx"%string /\
  docx_paragraphs docx_env "directory/letter.docx" = Ok [para_one; para_two] /\
  non_blank (concat (map content (chunks_of docx_env "directory/letter.docx")))
  = non_blank (concat [para_one; para_two]).
Proof.
  split; [reflexivity|]. split; [reflexivity|].
  apply (docx_paragraphs_survive docx_env "directory/letter.docx"
           [para_one; para_two]); reflexivity.
Defined.


